(** * boa: the JavaScript side of the Node.js <-> Python bridge

    A shallow embedding of [packages/boa/lib/index.js].  The native binding
    ([bindings('boa')]), the delegator table ([./delegator-loader]) and the
    helpers of [./utils] are not part of that file: the native binding is an
    oracle over an abstract foreign world, the other two are section
    variables, and so is what the engine knows of the objects made outside
    the file.  Every call that leaves the file (native method, host
    callback) is recorded in a trace, so that statements such as "item-get is
    attempted before attribute-get" are statements about that trace. *)

From Stdlib Require Import ZArith List Ascii String.
From stdpp Require Import base option list gmap strings pretty.
Import ListNotations.
Open Scope Z_scope.
Open Scope string_scope.
Open Scope list_scope.

(** ** Host values *)

(** A foreign handle is an opaque reference owned by the foreign runtime. *)
Definition handle := nat.
Bind Scope nat_scope with handle.

Inductive symbol :=
| SymIterator            (* Symbol.iterator *)
| SymToPrimitive         (* Symbol.toPrimitive *)
| SymInspect             (* util.inspect.custom *)
| SymIterIdx             (* IterIdxForSeqSymbol *)
| SymUser (n : nat).

(** A property key: a string or a symbol. *)
Inductive propname :=
| PStr (s : string)
| PSym (y : symbol).

(** The functions [_internalWrap] installs on a proxy target. *)
Inductive capability :=
| CapDispatch | CapInvoke | CapToString | CapSlice | CapInspect
| CapToPrimitive | CapIterator | CapHash
| CapHasattr | CapGetattr | CapGetitem | CapSetattr | CapSetitem.

(** JavaScript values as this file sees them.  A number is a double: the
    ones this file makes are integers ([VNum], which only ever holds an
    integer a double can hold) or [VInfinity]; fractions are outside the
    model.  [VObj] and [VFun] are objects and functions created outside this
    file (delegator products, user callbacks, foreign error objects); what
    the file reads from them is given by the observers of the section.
    [VBlank] is the empty object [{}] that [_internalWrap] takes for a
    missing [src]. *)
#[warnings="-register-all"]
Inductive value :=
| VUndefined
| VNull
| VBool (b : bool)
| VNum (n : Z)
| VStr (s : string)
| VSym (y : symbol)
| VArray (xs : list value)
| VHandle (T : handle)                 (* a native handle object *)
| VHandleRef (T : value)               (* asHandleObject(T) *)
| VBytes (data : value)                (* asBytesObject(data) *)
| VObj (o : nat)
| VFun (f : nat)
| VTypeError (msg : string)            (* new TypeError(msg) *)
| VProxy (T : value) (src : value)     (* new Proxy(src, traps) closed over T *)
| VCap (c : capability) (T : value)    (* a capability function closed over T *)
| VBound (f this : value)              (* f.bind(this) *)
| VWrap                                (* the function wrap itself *)
| VIterator (seq : bool) (T : value)   (* the object returned by the iteration hook *)
| VInfinity                            (* the number Infinity *)
| VBlank.                              (* a new object without own properties *)

Definition is_nullish (v : value) : bool :=
  match v with VUndefined | VNull => true | _ => false end.

(** [typeof v] *)
Fixpoint typeof (v : value) : string :=
  match v with
  | VUndefined => "undefined"
  | VBool _ => "boolean"
  | VNum _ | VInfinity => "number"
  | VStr _ => "string"
  | VSym _ => "symbol"
  | VFun _ | VCap _ _ | VBound _ _ | VWrap => "function"
  | VProxy _ src => if String.eqb (typeof src) "function" then "function" else "object"
  | _ => "object"
  end.

Definition is_function (v : value) : bool := String.eqb (typeof v) "function".

(** Truthiness, as [if (v)] and [!v] read it. *)
Definition truthy (v : value) : bool :=
  match v with
  | VUndefined | VNull => false
  | VBool b => b
  | VNum n => negb (Z.eqb n 0)
  | VStr s => negb (String.eqb s EmptyString)
  | _ => true
  end.

Definition symbol_eqb (a b : symbol) : bool :=
  match a, b with
  | SymIterator, SymIterator | SymToPrimitive, SymToPrimitive
  | SymInspect, SymInspect | SymIterIdx, SymIterIdx => true
  | SymUser n, SymUser m => Nat.eqb n m
  | _, _ => false
  end.

Definition propname_eqb (a b : propname) : bool :=
  match a, b with
  | PStr s, PStr t => String.eqb s t
  | PSym x, PSym y => symbol_eqb x y
  | _, _ => false
  end.

(** ** Results and the calls that leave the file *)

Inductive res (A : Type) :=
| Ok (a : A)
| Raise (e : value).
Arguments Ok {A} a.
Arguments Raise {A} e.

(** The methods of a native handle and of the interpreter instance, and the
    application of a function this file does not define.  The index is the
    type of what the call answers when it does not throw. *)
Inductive call : Type -> Type :=
| N_getitem (T : handle) (k : value) : call value
| N_getattr (T : handle) (n : value) : call value
| N_hasattr (T : handle) (n : value) : call bool
| N_setattr (T : handle) (n v : value) : call Z
| N_setitem (T : handle) (k v : value) : call Z
| N_invoke (T : handle) (args : list value) : call value
| N_toString (T : handle) : call string
| N_toPrimitive (T : handle) : call value
| N_isCallable (T : handle) : call bool
| N_isIterator (T : handle) : call bool
| N_isSequence (T : handle) : call bool
| N_next (T : handle) : call (bool * value)
| N_hash (T : handle) : call value
| N_import (mod_ : value) : call value
| N_eval (code : string) (globals locals : value) : call value
| H_apply (f this : value) (args : list value) : call value.

Inductive event :=
| Ev (X : Type) (c : call X).
Arguments Ev {X} c.

(** ** Index-like property names: [/^[0-9]+$/] and [parseInt(name, 10)] *)

Definition is_digit (c : ascii) : bool :=
  let n := nat_of_ascii c in Nat.leb 48 n && Nat.leb n 57.

Fixpoint all_digits (s : string) : bool :=
  match s with
  | EmptyString => true
  | String c s' => is_digit c && all_digits s'
  end.

Definition is_index (s : string) : bool :=
  match s with
  | EmptyString => false
  | _ => all_digits s
  end.

Fixpoint parse_digits (acc : Z) (s : string) : Z :=
  match s with
  | EmptyString => acc
  | String c s' => parse_digits (10 * acc + (Z.of_nat (nat_of_ascii c) - 48)) s'
  end.

(** The double nearest to a non-negative integer, ties to the even
    significand, as an integer.  Up to 2^53 every integer is a double; from
    there on a double keeps the 53 leading bits.  The exponent is not bounded
    here: from 2^1024 on the result stands for Infinity (see [number]). *)
Definition round_double (z : Z) : Z :=
  if Z.ltb z (2 ^ 53) then z
  else
    let e := Z.log2 z - 52 in
    let q := Z.shiftr z e in
    let r := Z.land z (Z.ones e) in
    let half := Z.shiftl 1 (e - 1) in
    let q' := if Z.ltb r half then q
              else if Z.ltb half r then q + 1
              else if Z.even q then q else q + 1 in
    Z.shiftl q' e.

(** [parseInt(name, 10)], only ever applied to a string that passed
    [is_index]: the number nearest to the integer the digits spell.  (The
    language requires that result up to 20 significant digits and lets an
    engine round the longer ones otherwise; V8 rounds them the same way.) *)
Definition parseInt10 (s : string) : Z := round_double (parse_digits 0 s).

(** The number value of such an integer. *)
Definition number (z : Z) : value :=
  if Z.ltb z (2 ^ 1024) then VNum z else VInfinity.

(** ** Plain host objects

    [kwargs] builds an object of its own and reads one the caller owns, so
    these live in a heap: a location holds the own properties of an object,
    each with its enumerable flag. *)
#[global] Instance symbol_eq_dec : EqDecision symbol.
Proof. solve_decision. Defined.

#[global] Instance propname_eq_dec : EqDecision propname.
Proof. solve_decision. Defined.

Definition symbol_code (y : symbol) : nat :=
  match y with
  | SymIterator => 0%nat
  | SymToPrimitive => 1%nat
  | SymInspect => 2%nat
  | SymIterIdx => 3%nat
  | SymUser n => (4 + n)%nat
  end.

Definition symbol_of_code (n : nat) : symbol :=
  match n with
  | 0%nat => SymIterator
  | 1%nat => SymToPrimitive
  | 2%nat => SymInspect
  | 3%nat => SymIterIdx
  | S (S (S (S m))) => SymUser m
  end.

#[global] Instance symbol_countable : Countable symbol.
Proof.
  apply (inj_countable' symbol_code symbol_of_code).
  intros []; reflexivity.
Defined.

#[global] Instance propname_countable : Countable propname.
Proof.
  apply (inj_countable'
           (fun p => match p with PStr s => inl s | PSym y => inr y end)
           (fun x => match x with inl s => PStr s | inr y => PSym y end)).
  intros []; reflexivity.
Defined.

Record property := Property { p_value : value; p_enumerable : bool }.

Abbreviation object := (gmap propname property).
Abbreviation heap := (gmap nat object).

(** ** The delegator table

    [DelegatorLoader.load()] answers one object: module name -> class name ->
    factory, with the two literal keys "callee" and "default" beside the
    module names.  An entry is a value ([Leaf]) or a table of factories
    ([Node], its own properties); whatever else an entry answers under a
    name, through its prototype chain or as a property of a function, is
    the observer [inherited] of the section. *)
Inductive slot :=
| Leaf (v : value)
| Node (members : gmap string value).

Definition member (s : slot) (name : string) : option slot :=
  match s with
  | Node m => Leaf <$> (m !! name)
  | Leaf _ => None
  end.

(** [typeof fn === 'function'] for what a lookup in the table answers
    ([None] is undefined). *)
Definition slot_function (r : option slot) : option value :=
  match r with
  | Some (Leaf v) => if is_function v then Some v else None
  | _ => None
  end.

Record typeinfo := TypeInfo { ti_module : string; ti_name : string }.

Definition primitive_names : list string :=
  ["int"; "int64"; "float"; "float64"; "bool"; "str"].

(** What the engine finds when it checks a property of a proxy target
    after a trap: nothing in the way, a data property that is neither
    writable nor configurable, or a non-configurable accessor without a
    setter. *)
Inductive lock :=
| Loose
| FixedData
| NoSetter.

(** ** A small foreign world

    A concrete runtime to run the bridge on: the builtins object 0 with
    [type] (1), [len] (2) and [slice] (3); the module [copy] (5) and its
    function [copy] (6); the global namespace 7; the integer 42 (10), None
    (11), a list of three integers (12) whose length is the integer 3 (13);
    an object with the attribute [x] and no item (14); a class (15), its
    instance (16) and the bound [__init__] of that instance (17); a set
    (18).  Type
    objects are 50.., the strings of their names 60...  The world holds the
    bindings of the namespace objects. *)
Abbreviation py_world := (gmap nat (gmap string value)).

Definition py_type_of (h : handle) : handle :=
  match h with
  | 10%nat | 13%nat => 50%nat
  | 11%nat => 51%nat
  | 12%nat => 52%nat
  | 15%nat => 53%nat
  | 16%nat => 54%nat
  | 17%nat => 55%nat
  | 18%nat => 57%nat
  | _ => 56%nat
  end.

Definition py_string (h : handle) : string :=
  match h with
  | 60%nat => "builtins"
  | 61%nat => "__main__"
  | 70%nat => "int"
  | 71%nat => "NoneType"
  | 72%nat => "list"
  | 73%nat => "type"
  | 74%nat => "Foo"
  | 75%nat => "method"
  | 77%nat => "set"
  | _ => "dict"
  end.

Definition py_callable (h : handle) : bool :=
  match h with
  | 1%nat | 2%nat | 3%nat | 6%nat | 15%nat | 17%nat => true
  | _ => false
  end.

Definition py_getitem (T : handle) (k : value) : res value :=
  match T, k with
  | 0%nat, VStr "type" => Ok (VHandle 1)
  | 0%nat, VStr "len" => Ok (VHandle 2)
  | 0%nat, VStr "slice" => Ok (VHandle 3)
  | 12%nat, VNum i =>
      if Z.leb 0 i && Z.ltb i 3 then Ok (VHandle 10) else Raise (VObj 91)
  | _, _ => Raise (VObj 90)
  end.

Definition py_getattr (T : handle) (n : value) : res value :=
  match n with
  | VStr "__module__" => Ok (VHandle (if Nat.eqb T 54 then 61 else 60))
  | VStr "__name__" => Ok (VHandle (T + 20))
  | VStr "copy" => if Nat.eqb T 5 then Ok (VHandle 6) else Raise (VObj 92)
  | VStr "x" => if Nat.eqb T 14 then Ok (VHandle 10) else Raise (VObj 92)
  | VStr "__init__" => if Nat.eqb T 16 then Ok (VHandle 17) else Raise (VObj 92)
  | _ => Raise (VObj 92)
  end.

Definition py_hasattr (T : handle) (n : value) : bool :=
  match n with
  | VStr "x" => Nat.eqb T 14
  | VStr "__init__" => Nat.eqb T 16
  | _ => false
  end.

Definition py_invoke (T : handle) (args : list value) : res value :=
  match T, args with
  | 1%nat, [VHandleRef (VHandle x)] => Ok (VHandle (py_type_of x))
  | 2%nat, [VHandleRef (VHandle 12%nat)] => Ok (VHandle 13)
  | 6%nat, [VHandleRef (VHandle _)] => Ok (VHandle 100)
  | 15%nat, _ => Ok (VHandle 16)
  | 17%nat, [] => Ok (VHandle 11)
  | _, _ => Raise (VObj 93)
  end.

(** Functions of the host: the delegator factories 0 (default), 1 (callee),
    2 (lists) and 3 (sets, which answers undefined); the [__enter__] (10) and [__exit__] (11) of a context
    object, whose exit answers false; callbacks that throw undefined (12),
    throw an error object (13), or return (any other). *)
Definition py_apply (f : value) : res value :=
  match f with
  | VFun 0%nat => Ok (VObj 40)
  | VFun 1%nat => Ok (VFun 41)
  | VFun 2%nat => Ok (VObj 42)
  | VFun 10%nat => Ok (VNum 1)
  | VFun 11%nat => Ok (VBool false)
  | VFun 12%nat => Raise VUndefined
  | VFun 13%nat => Raise (VObj 95)
  | _ => Ok VUndefined
  end.

Definition py_answer {X} (c : call X) (w : py_world) : res X :=
  match c in call X return res X with
  | N_getitem T k => py_getitem T k
  | N_getattr T n => py_getattr T n
  | N_hasattr T n => Ok (py_hasattr T n)
  | N_setattr _ _ _ => Ok 0
  | N_setitem T _ _ => Ok (match w !! T with Some _ => 0 | None => -1 end)
  | N_invoke T args => py_invoke T args
  | N_toString T => Ok (py_string T)
  | N_toPrimitive T =>
      Ok (if Nat.eqb T 10 then VNum 42 else if Nat.eqb T 13 then VNum 3
          else VUndefined)
  | N_isCallable T => Ok (py_callable T)
  | N_isIterator _ => Ok false
  | N_isSequence T => Ok (Nat.eqb T 12)
  | N_next _ => Ok (true, VUndefined)
  | N_hash T => Ok (VNum (Z.of_nat T))
  | N_import m =>
      match m with
      | VStr "copy" => Ok (VHandle 5)
      | _ => Raise (VObj 94)
      end
  | N_eval _ _ _ => Ok (VHandle 11)
  | H_apply f _ _ => py_apply f
  end.

(** What a call does to the namespaces: set-item binds a name in the
    namespace it is given, [copy.copy] makes the namespace 100 out of its
    argument, an execution binds "_" in its locals. *)
Definition py_step {X} (c : call X) (w : py_world) : py_world :=
  match c with
  | N_setitem T (VStr k) v =>
      match w !! T with
      | Some d => <[T := <[k := v]> d]> w
      | None => w
      end
  | N_invoke T [VHandleRef (VHandle x)] =>
      if Nat.eqb T 6 then <[100%nat := default ∅ (w !! x)]> w else w
  | N_eval code _ (VHandle l) =>
      match w !! l with
      | Some d => <[l := <["_" := VStr code]> d]> w
      | None => w
      end
  | _ => w
  end.

Definition python (X : Type) (c : call X) (w : py_world) : res X * py_world :=
  (py_answer c w, py_step c w).

Definition py_delegators : gmap string slot :=
  {[ "callee" := Leaf (VFun 1);
     "default" := Leaf (VFun 0);
     "builtins" := Node {[ "list" := VFun 2; "set" := VFun 3 ]} ]}.

(** The host objects: 30 is a context object. *)
Definition py_own_prop (v : value) (name : propname) : option value :=
  match v, name with
  | VObj 30%nat, PStr "__enter__" => Some (VFun 10)
  | VObj 30%nat, PStr "__exit__" => Some (VFun 11)
  | _, _ => None
  end.

(** The entries of the table are ordinary objects: they inherit
    [constructor]. *)
Definition py_inherited (module name : string) : option value :=
  if String.eqb name "constructor" then Some (VFun 60) else None.

Definition py_own_lock (v : value) (name : propname) : lock := Loose.

(** [SameValue] on the values the fixture tells apart. *)
Definition py_same_value (a b : value) : bool :=
  match a, b with
  | VUndefined, VUndefined | VNull, VNull => true
  | VBool x, VBool y => Bool.eqb x y
  | VNum x, VNum y => Z.eqb x y
  | VStr x, VStr y => String.eqb x y
  | VHandle x, VHandle y | VObj x, VObj y | VFun x, VFun y => Nat.eqb x y
  | _, _ => false
  end.

Definition py_ctor_proto_has (v : value) (name : propname) : bool := false.
Definition py_proto_read (v : value) (name : propname) : value := VUndefined.

Definition py_notEmpty (s : string) : bool := negb (String.eqb s EmptyString).
Definition py_getIndent (lines : list string) : value := VNum 0.
Definition py_removeIndent (indent : value) (line : string) : string := line.

(** The bindings of the global namespace, and a world where it holds one. *)
Definition py_globals (w : py_world) : gmap string value := default ∅ (w !! 7%nat).
Definition py_start : py_world := {[ 7%nat := {[ "x" := VNum 1 ]} ]}.

Section Bridge.
(** The foreign runtime: its state, and what each call answers. *)
Context {W : Type}.
Variable native : forall X, call X -> W -> res X * W.

(** [DelegatorLoader.load()], [pyInst.builtins()], [pyInst.globals()].
    [inherited module name] is what [delegators[module][name]] answers for a
    name that is not among the own factories of the entry
    [delegators[module]] ([None] is undefined): the loader decides what the
    entries are made of.  The table itself is read under "callee",
    "default" and the module names it owns only. *)
Variable delegators : gmap string slot.
Variable inherited : string -> string -> option value.
Variable builtinsT : value.
Variable globals : value.

(** Host-side state: the foreign world, and the back reference
    [T[native.NODE_PYTHON_WRAPPED_NAME]] written on each wrapped handle. *)
Record state := State { world : W; marks : gmap handle value }.

(** A computation answers a value or throws, moves the state, and leaves
    the trace of the calls it made, oldest first. *)
Definition M (A : Type) : Type := state -> res A * state * list event.

Definition ret {A} (a : A) : M A := fun s => (Ok a, s, []).
Definition raise {A} (e : value) : M A := fun s => (Raise e, s, []).
Definition bind {A B} (m : M A) (k : A -> M B) : M B :=
  fun s =>
    match m s with
    | (Ok a, s1, t1) =>
        match k a s1 with
        | (r, s2, t2) => (r, s2, t1 ++ t2)
        end
    | (Raise e, s1, t1) => (Raise e, s1, t1)
    end.

(** [try { m } catch (e) { h e }] *)
Definition try_catch {A} (m : M A) (h : value -> M A) : M A :=
  fun s =>
    match m s with
    | (Ok a, s1, t1) => (Ok a, s1, t1)
    | (Raise e, s1, t1) =>
        match h e s1 with
        | (r, s2, t2) => (r, s2, t1 ++ t2)
        end
    end.

Definition do_call {X} (c : call X) : M X :=
  fun s =>
    match native X c (world s) with
    | (r, w) => (r, State w (marks s), [Ev c])
    end.

Definition set_mark (T : handle) (v : value) : M unit :=
  fun s => (Ok tt, State (world s) (<[T := v]> (marks s)), []).

Notation "x <- m ;; k" := (bind m (fun x => k))
  (at level 100, m at next level, right associativity).
Notation "m ;;; k" := (bind m (fun _ => k))
  (at level 100, right associativity).

(** A method call [T.m(...)] on a value the native side handed over: a
    TypeError unless [T] is a handle object. *)
Definition method {X} (T : value) (c : handle -> call X) : M X :=
  match T with
  | VHandle h => do_call (c h)
  | _ => raise (VTypeError "not a native handle")
  end.

Definition asHandleObject (T : value) : value := VHandleRef T.
Definition asBytesObject (str : value) : value := VBytes str.

(** [builtins] is [_internalWrap(pyInst.builtins())]: its [__getitem__]
    is the capability of that name, which forwards to the handle. *)
Definition getTypeInfo (T : value) : M typeinfo :=
  ty <- method builtinsT (fun h => N_getitem h (VStr "type")) ;;
  typeo <- method ty (fun h => N_invoke h [asHandleObject T]) ;;
  m <- method typeo (fun h => N_getattr h (VStr "__module__")) ;;
  ms <- method m N_toString ;;
  n <- method typeo (fun h => N_getattr h (VStr "__name__")) ;;
  ns <- method n N_toString ;;
  ret (TypeInfo ms ns).

Definition copy (T : value) : M value :=
  md <- do_call (N_import (VStr "copy")) ;;
  fn <- method md (fun h => N_getattr h (VStr "copy")) ;;
  method fn (fun h => N_invoke h [asHandleObject T]).

Definition getDelegator (type : string + typeinfo) : option slot :=
  match type with
  | inl key => delegators !! key
  | inr ti =>
      match delegators !! ti_module ti with
      | Some s =>
          match member s (ti_name ti) with
          | Some r => Some r
          | None => Leaf <$> inherited (ti_module ti) (ti_name ti)
          end
      | None => None
      end
  end.

(** [function _internalWrap(T, src={})]: a missing or undefined [src] is a
    new empty object.  [Object.defineProperties(src, ...)] needs an object,
    which is taken to accept the descriptors (it is extensible and holds no
    non-configurable property under one of their names); the proxy then
    closes over [T] and [src]. *)
Definition is_object (v : value) : bool :=
  negb (is_nullish v) &&
  (String.eqb (typeof v) "object" || String.eqb (typeof v) "function").

Definition _internalWrap (T : value) (src : value) : M value :=
  let src := match src with VUndefined => VBlank | _ => src end in
  if is_object src then ret (VProxy T src)
  else raise (VTypeError "Object.defineProperties called on non-object").

Definition wrap (T : value) : M value :=
  if is_nullish T then ret T else
  type <- getTypeInfo T ;;
  if String.eqb (ti_module type) "builtins" && String.eqb (ti_name type) "NoneType"
  then ret VNull else
  if existsb (String.eqb (ti_name type)) primitive_names
  then method T N_toPrimitive else
  c <- method T N_isCallable ;;
  let fn := getDelegator (if c then inl "callee" else inr type) in
  let fn := match slot_function fn with
            | Some _ => fn
            | None => getDelegator (inl "default")
            end in
  src <- match slot_function fn with
         | Some f => do_call (H_apply f VUndefined [T; VWrap])
         | None => raise (VTypeError "fn is not a function")
         end ;;
  wrapped <- _internalWrap T src ;;
  match T with
  | VHandle h => set_mark h wrapped
  | _ => raise (VTypeError "cannot create property")
  end ;;;
  ret wrapped.

(** ** The proxy target

    What the file reads off an object it did not create ([src], the product
    of a delegator): its own properties, whether the prototype of its
    constructor owns a name, and what a read of a name it does not own
    answers (the prototype chain).  [src] is taken to be an ordinary object:
    [src.constructor.prototype] exists. *)
Variable own_prop : value -> propname -> option value.
Variable ctor_proto_has : value -> propname -> bool.
Variable proto_read : value -> propname -> value.

(** [native.NODE_PYTHON_HANDLE_NAME], [native.NODE_PYTHON_JS_DISPATCH]. *)
Variable HANDLE_NAME : string.
Variable JS_DISPATCH : string.

(** The descriptors [Object.defineProperties(src, {...})] installs, in the
    order of the source; a key written twice keeps its last value. *)
Definition installed (T : value) : list (propname * value) :=
  [ (PStr HANDLE_NAME, T);
    (PStr JS_DISPATCH, VCap CapDispatch T);
    (PStr "invoke", VCap CapInvoke T);
    (PStr "toString", VCap CapToString T);
    (PStr "slice", VCap CapSlice T);
    (PSym SymInspect, VCap CapInspect T);
    (PSym SymToPrimitive, VCap CapToPrimitive T);
    (PSym SymIterator, VCap CapIterator T);
    (PStr "__hash__", VCap CapHash T);
    (PStr "__hasattr__", VCap CapHasattr T);
    (PStr "__getattr__", VCap CapGetattr T);
    (PStr "__getitem__", VCap CapGetitem T);
    (PStr "__setattr__", VCap CapSetattr T);
    (PStr "__setitem__", VCap CapSetitem T) ].

Fixpoint assoc_last (name : propname) (l : list (propname * value)) : option value :=
  match l with
  | [] => None
  | (k, v) :: l' =>
      match assoc_last name l' with
      | Some v' => Some v'
      | None => if propname_eqb k name then Some v else None
      end
  end.

(** [hasOwnProperty.call(target, name)] with its value, and [target[name]]. *)
Definition target_own (T src : value) (name : propname) : option value :=
  match assoc_last name (installed T) with
  | Some v => Some v
  | None => own_prop src name
  end.

Definition has_own (T src : value) (name : propname) : bool :=
  match target_own T src name with
  | Some _ => true
  | None => false
  end.

Definition target_read (T src : value) (name : propname) : value :=
  match target_own T src name with
  | Some v => v
  | None => proto_read src name
  end.

(** ** What the engine asks of a proxy

    After a trap has answered, the engine looks at the property of that
    name the target owns.  A data property that is neither writable nor
    configurable must be read with its actual value, and can only be
    assigned that value; a non-configurable accessor without a setter cannot
    be assigned at all.  Every descriptor of [_internalWrap] says
    [writable: false]; those that do not say [configurable: true] make a
    property of the first kind, unless [src] owned the name before (a
    property that was configurable stays so; one that was not is outside the
    model).  [own_lock] tells the same of a name [src] owns by itself,
    [same_value] is the [SameValue] of the engine. *)
Variable own_lock : value -> propname -> lock.
Variable same_value : value -> value -> bool.

(** The [configurable] of each descriptor, in the order of the source. *)
Definition installed_configurable : list (propname * bool) :=
  [ (PStr HANDLE_NAME, false);
    (PStr JS_DISPATCH, true);
    (PStr "invoke", false);
    (PStr "toString", true);
    (PStr "slice", true);
    (PSym SymInspect, true);
    (PSym SymToPrimitive, true);
    (PSym SymIterator, true);
    (PStr "__hash__", true);
    (PStr "__hasattr__", true);
    (PStr "__getattr__", true);
    (PStr "__getitem__", true);
    (PStr "__setattr__", true);
    (PStr "__setitem__", true) ].

Fixpoint last_flag (name : propname) (l : list (propname * bool)) : option bool :=
  match l with
  | [] => None
  | (k, b) :: l' =>
      match last_flag name l' with
      | Some b' => Some b'
      | None => if propname_eqb k name then Some b else None
      end
  end.

Definition target_lock (src : value) (name : propname) : lock :=
  match last_flag name installed_configurable, own_prop src name with
  | Some true, _ => Loose
  | Some false, None => FixedData
  | Some false, Some _ => Loose
  | None, Some _ => own_lock src name
  | None, None => Loose
  end.

(** The GET trap answers the value the target holds, or a bound copy of it
    when that is a function: a copy is another value. *)
Definition get_refused (T src : value) (name : propname) : bool :=
  match target_lock src name with
  | FixedData => is_function (target_read T src name)
  | _ => false
  end.

(** The SET trap answered true for the value [v]. *)
Definition set_refused (T src : value) (name : propname) (v : value) : bool :=
  match target_lock src name with
  | FixedData => negb (same_value v (target_read T src name))
  | NoSetter => true
  | Loose => false
  end.

Definition key_of (name : propname) : value :=
  match name with
  | PStr s => VStr s
  | PSym y => VSym y
  end.

(** ** The traps of the proxy *)

(** The last step of GET: item-get by the name itself, inside
    [try { ... } catch (e) { debug(`... ${e.message}`) }].  The handler reads
    [e.message], so it needs [e] to be something a property can be read of. *)
Definition get_item_fallback (T : value) (name : propname) : M value :=
  try_catch
    (r <- method T (fun h => N_getitem h (key_of name)) ;;
     if is_nullish r then ret VUndefined else wrap r)
    (fun e =>
       if is_nullish e then raise (VTypeError "Cannot read properties")
       else ret VUndefined).

Definition trap_get (T src : value) (name : propname) : M value :=
  let newTarget := VProxy T src in
  if has_own T src name || ctor_proto_has src name then
    let v := target_read T src name in
    ret (if is_function v then VBound v newTarget else v)
  else
    match name with
    | PStr s =>
        if is_index s then
          r <- method T (fun h => N_getitem h (number (parseInt10 s))) ;;
          wrap r
        else
          b <- method T (fun h => N_hasattr h (VStr s)) ;;
          if b then
            r <- method T (fun h => N_getattr h (VStr s)) ;;
            wrap r
          else get_item_fallback T name
    | PSym _ => get_item_fallback T name
    end.

(** [r !== -1] *)
Definition not_failed (r : Z) : bool := negb (Z.eqb r (-1)).

Definition set_item_fallback (T : value) (name : propname) (v : value) : M bool :=
  r <- method T (fun h => N_setitem h (key_of name) v) ;;
  r <- (if Z.eqb r (-1) then method T (fun h => N_setattr h (key_of name) v)
        else ret r) ;;
  ret (not_failed r).

Definition trap_set (T : value) (name : propname) (v : value) : M bool :=
  match name with
  | PStr s =>
      if is_index s then
        r <- method T (fun h => N_setitem h (number (parseInt10 s)) v) ;;
        ret (not_failed r)
      else
        b <- method T (fun h => N_hasattr h (VStr s)) ;;
        if b then
          r <- method T (fun h => N_setattr h (VStr s) v) ;;
          ret (not_failed r)
        else set_item_fallback T name v
  | PSym _ => set_item_fallback T name v
  end.

Definition trap_apply (T : value) (argumentsList : list value) : M value :=
  r <- method T (fun h => N_invoke h argumentsList) ;;
  wrap r.

(** ** Iteration *)

(** [builtins.__getitem__('len').invoke(asHandleObject(T)).toPrimitive()] *)
Definition seq_length (T : value) : M value :=
  len <- method builtinsT (fun h => N_getitem h (VStr "len")) ;;
  n <- method len (fun h => N_invoke h [asHandleObject T]) ;;
  method n N_toPrimitive.

(** The function stored under [Symbol.iterator]. *)
Definition symbol_iterator (T : value) : M value :=
  it <- method T N_isIterator ;;
  if it then ret (VIterator false T)
  else
    sq <- method T N_isSequence ;;
    if sq then ret (VIterator true T)
    else raise (VTypeError "object is not iteratable or sequence.").

(** [next] of the iterator over a foreign iterator; a step is the pair
    [{ done, value }]. *)
Definition iter_next (T : value) : M (bool * value) :=
  curr <- method T N_next ;;
  v <- wrap (snd curr) ;;
  ret (fst curr, v).

(** [index >= lengthOfSeq]: an integer against what to-primitive answered.
    [None] is not-a-number or Infinity: the comparison is false for both; of
    the strings only digit runs are read as numbers. *)
Definition to_number (v : value) : option Z :=
  match v with
  | VNum n => Some n
  | VBool b => Some (if b then 1 else 0)
  | VNull => Some 0
  | VStr s =>
      if is_index s && Z.ltb (parseInt10 s) (2 ^ 1024) then Some (parseInt10 s)
      else None
  | _ => None
  end.

Definition js_ge (index : Z) (v : value) : bool :=
  match to_number v with
  | Some n => Z.leb n index
  | None => false
  end.

(** [next] of the iterator over a foreign sequence.  The cursor is the
    property [this[IterIdxForSeqSymbol]] of the iterator object ([None]
    while it is not a number); it is written before anything can throw, so
    the step answers the new cursor beside the computation. *)
Definition advance (cursor : option Z) : Z :=
  match cursor with
  | Some i => i + 1
  | None => 0
  end.

Definition seq_step (T : value) (index : Z) : M (bool * value) :=
  lengthOfSeq <- seq_length T ;;
  if js_ge index lengthOfSeq then ret (true, VUndefined)
  else
    r <- method T (fun h => N_getitem h (VNum index)) ;;
    v <- wrap r ;;
    ret (false, v).

Definition seq_next (T : value) (cursor : option Z) : option Z * M (bool * value) :=
  let index := advance cursor in
  (Some index, seq_step T index).

(** [next] of the object the hook answered ([seq] tells which of the two). *)
Definition next_of (seq : bool) (T : value) (cursor : option Z)
  : option Z * M (bool * value) :=
  if seq then seq_next T cursor else (cursor, iter_next T).

(** A [for (const x of ...)] loop over that object: [next] until a step
    reports done, the values of the other steps collected.  The flag tells
    whether the loop ended within [fuel] steps. *)
Fixpoint iterate (fuel : nat) (seq : bool) (T : value) (cursor : option Z)
  : M (list value * bool) :=
  match fuel with
  | O => ret ([], false)
  | S fuel' =>
      st <- snd (next_of seq T cursor) ;;
      if fst st then ret ([], true)
      else
        rest <- iterate fuel' seq T (fst (next_of seq T cursor)) ;;
        ret (snd st :: fst rest, snd rest)
  end.

(** The integer keys of the item-gets a trace performs on handle [h]. *)
Definition index_get (h : handle) (e : event) : list Z :=
  match e with
  | Ev (N_getitem h' (VNum i)) => if Nat.eqb h' h then [i] else []
  | _ => []
  end.

Definition index_gets (h : handle) (t : list event) : list Z :=
  flat_map (index_get h) t.

(** ** Calling a function value *)

Definition arg (i : nat) (args : list value) : value := nth i args VUndefined.

Fixpoint mapM {A B} (f : A -> M B) (l : list A) : M (list B) :=
  match l with
  | [] => ret []
  | x :: l' => y <- f x ;; ys <- mapM f l' ;; ret (y :: ys)
  end.

Fixpoint forM_ {A} (l : list A) (f : A -> M value) : M unit :=
  match l with
  | [] => ret tt
  | x :: l' => f x ;;; forM_ l' f
  end.

(** The body of each capability.  [CapDispatch] wraps its arguments and
    hands them to the callback, which the host runs. *)
Definition capability_call (c : capability) (T this : value) (args : list value)
  : M value :=
  match c with
  | CapDispatch =>
      let fn := arg 0 args in
      if is_nullish fn then raise (VTypeError "Cannot read properties") else
      wrapped <- mapM wrap (tl args) ;;
      if is_function fn then do_call (H_apply fn this wrapped)
      else raise (VTypeError "fn.apply is not a function")
  | CapInvoke =>
      match arg 0 args with
      | VArray xs => method T (fun h => N_invoke h xs)
      | a => if is_nullish a || is_object a then method T (fun h => N_invoke h [])
             else raise (VTypeError "CreateListFromArrayLike called on non-object")
      end
  | CapToString | CapInspect | CapToPrimitive =>
      s <- method T N_toString ;; ret (VStr s)
  | CapSlice =>
      sl <- method builtinsT (fun h => N_getitem h (VStr "slice")) ;;
      slice <- method sl (fun h => N_invoke h [arg 0 args; arg 1 args; arg 2 args]) ;;
      r <- method T (fun h => N_getitem h (asHandleObject slice)) ;;
      wrap r
  | CapIterator => symbol_iterator T
  | CapHash => method T N_hash
  | CapHasattr => b <- method T (fun h => N_hasattr h (arg 0 args)) ;; ret (VBool b)
  | CapGetattr => method T (fun h => N_getattr h (arg 0 args))
  | CapGetitem => method T (fun h => N_getitem h (arg 0 args))
  | CapSetattr =>
      r <- method T (fun h => N_setattr h (arg 0 args) (arg 1 args)) ;; ret (VNum r)
  | CapSetitem =>
      r <- method T (fun h => N_setitem h (arg 0 args) (arg 1 args)) ;; ret (VNum r)
  end.

(** [f.apply(this, args)] for any value [f]. *)
Fixpoint call_value (f this : value) (args : list value) : M value :=
  match f with
  | VFun _ => do_call (H_apply f this args)
  | VBound g this' => call_value g this' args
  | VCap c T => capability_call c T this args
  | VProxy T src =>
      if is_function src then trap_apply T args
      else raise (VTypeError "not a function")
  | VWrap => wrap (arg 0 args)
  | _ => raise (VTypeError "not a function")
  end.

(** [obj[name]]: through the GET trap on a proxy and past the check of the
    engine, a TypeError on null and undefined, the object's own or inherited property on an outside object.
    Of the objects this file builds, an error carries its message (what it
    inherits is left out). *)
Definition read_prop (obj : value) (name : propname) : value :=
  match own_prop obj name with
  | Some v => v
  | None => proto_read obj name
  end.

Definition get_member (obj : value) (name : propname) : M value :=
  match obj with
  | VUndefined | VNull => raise (VTypeError "Cannot read properties")
  | VProxy T src =>
      v <- trap_get T src name ;;
      if get_refused T src name
      then raise (VTypeError "'get' on proxy: the trap did not answer the actual value")
      else ret v
  | VTypeError msg =>
      ret (if propname_eqb name (PStr "message") then VStr msg else VUndefined)
  | _ => ret (read_prop obj name)
  end.

(** [proxy[name] = v] on the proxy over [T] with target [src]: the SET trap,
    then the check of the engine.  The answer is whether the assignment
    succeeded (what the assigning code makes of a failure is its own). *)
Definition set_member (T src : value) (name : propname) (v : value) : M bool :=
  ok <- trap_set T name v ;;
  if ok && set_refused T src name v
  then raise (VTypeError "'set' on proxy: the target holds another value")
  else ret ok.

(** ** The CONSTRUCT trap

    [newClass_proto] lists [Object.getOwnPropertyNames(newClass.prototype)]
    with the value each name reads. *)
Definition trap_construct (T : value) (argumentsList : list value)
    (newClass_proto : list (string * value)) : M value :=
  r <- method T (fun h => N_invoke h argumentsList) ;;
  obj <- wrap r ;;
  init <- get_member obj (PStr "__init__") ;;
  call_value init obj [] ;;;
  forM_ (List.filter (fun nv => negb (String.eqb (fst nv) "constructor")) newClass_proto)
    (fun nv =>
       sa <- get_member obj (PStr "__setattr__") ;;
       call_value sa obj [VStr (fst nv); snd nv]) ;;;
  ret obj.

(** ** The module's exports *)

Definition import (mod_ : value) : M value :=
  r <- do_call (N_import mod_) ;;
  wrap r.

Definition bytes (data : value) : value := asBytesObject data.

(** *** with

    The answer of the async function: it never throws, it settles. *)
Inductive promise :=
| Fulfilled
| Rejected (err : value).

Definition async (body : M unit) : M promise :=
  fun s =>
    match body s with
    | (Ok _, s1, t1) => (Ok Fulfilled, s1, t1)
    | (Raise e, s1, t1) => (Ok (Rejected e), s1, t1)
    end.

(** The catch clause: [hitException = true], then
    [if (!ctx.__exit__(asHandleObject(err.ptype), ...)) throw err].  The
    callee [ctx.__exit__] is read before the arguments are evaluated. *)
Definition with_catch (ctx err : value) : M bool :=
  ex <- get_member ctx (PStr "__exit__") ;;
  ptype <- get_member err (PStr "ptype") ;;
  pvalue <- get_member err (PStr "pvalue") ;;
  ptrace <- get_member err (PStr "ptrace") ;;
  handled <- call_value ex ctx
               [asHandleObject ptype; asHandleObject pvalue; asHandleObject ptrace] ;;
  if truthy handled then ret true else raise err.

(** The try block and its catch clause.  The answer is [hitException] as the
    clause leaves it; a throw out of this computation comes from the catch
    clause, where [hitException] is already true. *)
Definition with_try (ctx fn : value) : M bool :=
  try_catch
    (en <- get_member ctx (PStr "__enter__") ;;
     v <- call_value en ctx [] ;;
     call_value fn VUndefined [v] ;;;
     ret false)
    (with_catch ctx).

Definition with_finally (ctx : value) (hitException : bool) : M unit :=
  if hitException then ret tt
  else
    ex <- get_member ctx (PStr "__exit__") ;;
    call_value ex ctx [VNull; VNull; VNull] ;;;
    ret tt.

Definition with_body (ctx fn : value) : M unit :=
  fun s =>
    match with_try ctx fn s with
    | (Ok hit, s1, t1) =>
        match with_finally ctx hit s1 with
        | (r, s2, t2) => (r, s2, t1 ++ t2)
        end
    | (Raise e, s1, t1) =>
        match with_finally ctx true s1 with
        | (Ok _, s2, t2) => (Raise e, s2, t1 ++ t2)
        | (Raise e', s2, t2) => (Raise e', s2, t1 ++ t2)
        end
    end.

Definition with_ (ctx fn : value) : M promise :=
  en <- get_member ctx (PStr "__enter__") ;;
  ok <- (if is_function en
         then ex <- get_member ctx (PStr "__exit__") ;; ret (is_function ex)
         else ret false) ;;
  if negb ok then
    raise (VTypeError "the context object must have the magic methods: `__enter__`, `__exit__`.")
  else if negb (is_function fn) then
    ex <- get_member ctx (PStr "__exit__") ;;
    call_value ex ctx [VNull; VNull; VNull] ;;;
    raise (VTypeError "the `fn` must be a function.")
  else async (with_body ctx fn).

(** *** eval

    [utils.notEmpty], [utils.getIndent] and [utils.removeIndent] belong to
    [./utils]. *)
Variable notEmpty : string -> bool.
Variable getIndent : list string -> value.
Variable removeIndent : value -> string -> string.

Definition newline : string := String (ascii_of_nat 10) EmptyString.

(** [s.split('\n')] *)
Fixpoint split_lines (s : string) : list string :=
  match s with
  | EmptyString => [EmptyString]
  | String c s' =>
      if Nat.eqb (nat_of_ascii c) 10 then EmptyString :: split_lines s'
      else
        match split_lines s' with
        | l :: ls => String c l :: ls
        | [] => [String c EmptyString]
        end
  end.

(** The first argument of the tag function: a string, or the array of the
    template's literal segments. *)
Inductive template :=
| Plain (s : string)
| Segments (strs : list string).

Definition var_name (idx : nat) : string := "boa_eval_var_" +:+ pretty idx.

(** [strs.reduce((acc, str) => ..., src)] with the counter [idx] it closes
    over. *)
Fixpoint interpolate (env : value) (params : list value) (strs : list string)
    (acc : string) (idx : nat) : M string :=
  match strs with
  | [] => ret acc
  | str :: rest =>
      let next := acc +:+ str in
      if Nat.ltb idx (length params) then
        let k := var_name idx in
        let v := nth idx params VUndefined in
        method env (fun h => N_setitem h (VStr k) v) ;;;
        interpolate env params rest (next +:+ k) (idx + 1)
      else interpolate env params rest next idx
  end.

Definition normalize (src : string) : string :=
  let lines := List.filter notEmpty (split_lines src) in
  let indent := getIndent lines in
  String.concat newline (map (removeIndent indent) lines).

Definition eval (strs : template) (params : list value) : M value :=
  se <- match strs with
        | Plain s => ret (s, globals)
        | Segments [s] => ret (s, globals)
        | Segments l =>
            env <- copy globals ;;
            src <- interpolate env params l EmptyString 0 ;;
            ret (src, env)
        end ;;
  r <- do_call (N_eval (normalize (fst se)) (snd se) (snd se)) ;;
  wrap r.

(** *** kwargs

    [native.NODE_PYTHON_KWARGS_NAME], and the enumerable own properties
    [Object.assign] reads off a source that is not a plain object of the
    heap (a proxy, a handle, an array). *)
Variable KWARGS_NAME : string.
Variable exotic_enumerable : value -> gmap propname value.

Definition enumerable_own (h : heap) (input : value) : gmap propname value :=
  match input with
  | VNull | VUndefined => ∅
  | VObj o =>
      match h !! o with
      | Some props => p_value <$> filter (fun kp => p_enumerable (snd kp) = true) props
      | None => ∅
      end
  | _ => exotic_enumerable input
  end.

(** [Object.assign({}, input, { [KWARGS_NAME]: true })] writes ordinary
    (enumerable) properties on a new object; the later source wins. *)
Definition kwargs_object (h : heap) (input : value) : object :=
  <[PStr KWARGS_NAME := Property (VBool true) true]>
    ((fun v => Property v true) <$> enumerable_own h input).

Definition kwargs (input : value) (h : heap) : res value * heap :=
  if negb (String.eqb (typeof input) "object") then
    (Raise (VTypeError "input must be a string."), h)
  else
    let o := fresh (dom h) in
    (Ok (VObj o), <[o := kwargs_object h input]> h).

(** ** Vocabulary of the statements *)

(** The delegator [wrap] ends up applying: the preferred lookup if it answers
    a function, the "default" entry if that does. *)
Definition selected_delegator (callable : bool) (ti : typeinfo) : option value :=
  let preferred :=
    if callable then getDelegator (inl "callee") else getDelegator (inr ti) in
  match slot_function preferred with
  | Some f => Some f
  | None => slot_function (getDelegator (inl "default"))
  end.

(** How GET reaches its last step: at once for a symbol, after the handle
    denied the attribute for a string that is no index. *)
Definition reaches_fallback (h : handle) (name : propname) (s s' : state)
    (prefix : list event) : Prop :=
  match name with
  | PSym _ => s' = s /\ prefix = []
  | PStr str =>
      is_index str = false /\
      exists w1, native bool (N_hasattr h (VStr str)) (world s) = (Ok false, w1) /\
                 s' = State w1 (marks s) /\
                 prefix = [Ev (N_hasattr h (VStr str))]
  end.

(** A computation that performs no item-get by integer on [h]. *)
Definition quiet (h : handle) {A} (m : M A) : Prop :=
  forall s r s' t, m s = (r, s', t) -> index_gets h t = [].

Definition declared_members (newClass_proto : list (string * value))
  : list (string * value) :=
  List.filter (fun nv => negb (String.eqb (fst nv) "constructor")) newClass_proto.

(** The argument lists of the applications of the outside function [f] in a
    trace. *)
Definition application (f : nat) (e : event) : list (list value) :=
  match e with
  | Ev (H_apply (VFun g) _ args) => if Nat.eqb g f then [args] else []
  | _ => []
  end.

Definition calls_to (f : nat) (t : list event) : list (list value) :=
  flat_map (application f) t.

(** What the promise of [with] settles to, from what the catch clause did. *)
Definition settle (caught : res bool * state * list event) (prefix : list event)
  : res promise * state * list event :=
  match caught with
  | (Ok _, s', t) => (Ok Fulfilled, s', prefix ++ t)
  | (Raise e, s', t) => (Ok (Rejected e), s', prefix ++ t)
  end.

Definition prepend {A} (prefix : list event) (run : res A * state * list event)
  : res A * state * list event :=
  match run with
  | (r, s', t) => (r, s', prefix ++ t)
  end.

(** The template as the claim words it: each segment but the last followed
    by the generated name of its position. *)
Fixpoint reassemble (strs : list string) (idx : nat) : string :=
  match strs with
  | [] => EmptyString
  | [str] => str
  | str :: rest => str +:+ var_name idx +:+ reassemble rest (S idx)
  end.

(** The set-items that bind the values [params] from position [idx] on. *)
Definition binding (e : handle) (params : list value) (i : nat) : event :=
  Ev (N_setitem e (VStr (var_name i)) (nth i params VUndefined)).

Definition bindings (e : handle) (params : list value) (idx n : nat) : list event :=
  map (binding e params) (seq idx n).

Definition is_handle (g : handle) (v : value) : bool :=
  match v with
  | VHandle h => Nat.eqb h g
  | _ => false
  end.

(** The calls that hand the namespace object [g] to the foreign runtime to
    be written: a set-item or set-attribute on it, an execution with it as
    globals or locals. *)
Definition targets (g : handle) (e : event) : bool :=
  match e with
  | Ev (N_setitem T _ _) => Nat.eqb T g
  | Ev (N_setattr T _ _) => Nat.eqb T g
  | Ev (N_eval _ gl lo) => is_handle g gl || is_handle g lo
  | _ => false
  end.

(** A computation that leaves the global namespace alone: none of its calls
    targets [g], and the bindings of [g] are the same after it. *)
Definition apart (g : handle) (ns : W -> gmap string value) {A} (m : M A)
  : Prop :=
  forall s r s' t, m s = (r, s', t) ->
    ns (world s') = ns (world s) /\ existsb (targets g) t = false.

(** ** Vocabulary of the further statements *)

(** The calls [wrap] is made of: an item-get, an attribute-get or query, an
    invocation, a rendering, a to-primitive, a callable query, the
    application of a host function.  Not among them: set-item,
    set-attribute, execution, import, the step of a foreign iterator and
    the other queries. *)
Definition inspects (e : event) : bool :=
  match e with
  | Ev (N_getitem _ _) | Ev (N_getattr _ _) | Ev (N_hasattr _ _)
  | Ev (N_invoke _ _) | Ev (N_toString _) | Ev (N_toPrimitive _)
  | Ev (N_isCallable _) | Ev (H_apply _ _ _) => true
  | _ => false
  end.

(** The calls of an assignment through the proxy over [h]. *)
Definition assigns (h : handle) (e : event) : bool :=
  match e with
  | Ev (N_hasattr T _) | Ev (N_setitem T _ _) | Ev (N_setattr T _ _) => Nat.eqb T h
  | _ => false
  end.

(** A computation whose every run makes at most [n] calls, all in [P]. *)
Definition bounded (P : event -> bool) (n : nat) {A} (m : M A) : Prop :=
  forall s r s' t, m s = (r, s', t) ->
    (length t <= n)%nat /\ forallb P t = true.

(** A computation that writes no back reference. *)
Definition keeps_marks {A} (m : M A) : Prop :=
  forall s r s' t, m s = (r, s', t) -> marks s' = marks s.

(** [obj.name(...args)] *)
Definition member_call (obj : value) (name : propname) (args : list value)
  : M value :=
  m <- get_member obj name ;;
  call_value m obj args.

(** The text [interpolate] accumulates, as a function of the segments and
    of the number [n] of values alone. *)
Fixpoint weave (strs : list string) (n idx : nat) : string :=
  match strs with
  | [] => EmptyString
  | str :: rest =>
      if Nat.ltb idx n then str +:+ var_name idx +:+ weave rest n (idx + 1)
      else str +:+ weave rest n idx
  end.

(** A thrown value whose properties are read without a call: anything but
    null and undefined (no property can be read of them) and a proxy (whose
    reads go to the foreign runtime). *)
Definition thrown_plain (e : value) : bool :=
  match e with
  | VUndefined | VNull | VProxy _ _ => false
  | _ => true
  end.

(** What [with] asks of the context object before anything else. *)
Definition context_ok (ctx : value) : bool :=
  is_function (read_prop ctx (PStr "__enter__"))
  && is_function (read_prop ctx (PStr "__exit__")).

(** One query of the length of [T]: the lookup of the [len] builtin, its
    invocation on the handle, the conversion of the answer. *)
Definition length_query (b : handle) (T : value) (q : list event) : Prop :=
  exists l n,
    q = [Ev (N_getitem b (VStr "len")); Ev (N_invoke l [asHandleObject T]);
         Ev (N_toPrimitive n)].

(** * Properties *)

(** ** Strings and numbers *)

Lemma string_app_nil_r (a : string) : a +:+ EmptyString = a.
Proof.
  induction a as [|ch a IH]; [reflexivity|].
  change (String ch (a +:+ EmptyString) = String ch a). now rewrite IH.
Qed.

Lemma string_app_assoc (a b d : string) : (a +:+ b) +:+ d = a +:+ (b +:+ d).
Proof.
  induction a as [|ch a IH]; [reflexivity|].
  change (String ch ((a +:+ b) +:+ d) = String ch (a +:+ (b +:+ d))).
  now rewrite IH.
Qed.

Lemma parse_digits_app acc a b :
  parse_digits acc (a +:+ b) = parse_digits (parse_digits acc a) b.
Proof.
  revert acc. induction a as [|ch a IH]; intros acc; [reflexivity|].
  change (String ch a +:+ b) with (String ch (a +:+ b)).
  cbn [parse_digits]. apply IH.
Qed.

Lemma all_digits_app a b :
  all_digits (a +:+ b) = all_digits a && all_digits b.
Proof.
  induction a as [|ch a IH]; [reflexivity|].
  change (String ch a +:+ b) with (String ch (a +:+ b)).
  cbn [all_digits]. rewrite IH. apply andb_assoc.
Qed.

Lemma pretty_N_char_digit (m : N) :
  (m < 10)%N ->
  is_digit (pretty_N_char m) = true
  /\ Z.of_nat (nat_of_ascii (pretty_N_char m)) - 48 = Z.of_N m.
Proof.
  intros Hm.
  assert (m = 0 \/ m = 1 \/ m = 2 \/ m = 3 \/ m = 4 \/ m = 5 \/ m = 6 \/ m = 7
          \/ m = 8 \/ m = 9)%N as Hcases by lia.
  repeat (destruct Hcases as [->|Hcases]); try subst m; split; reflexivity.
Qed.

(** The decimal rendering, digit by digit. *)
Lemma pretty_N_go_digits (x : N) :
  forall s, exists d p,
    pretty_N_go x s = d +:+ s
    /\ all_digits d = true
    /\ 0 < p
    /\ (forall acc, parse_digits acc d = acc * p + Z.of_N x)
    /\ ((0 < x)%N -> d <> EmptyString).
Proof.
  induction (N.lt_wf_0 x) as [x _ IH]. intros s.
  assert (x = 0 \/ 0 < x)%N as [->|Hx] by lia.
  - exists EmptyString, 1. rewrite pretty_N_go_0.
    split; [reflexivity|]. split; [reflexivity|]. split; [lia|].
    split; [intros; cbn [parse_digits]; lia | lia].
  - rewrite pretty_N_go_step by exact Hx.
    destruct (IH (x `div` 10)%N ltac:(apply N.div_lt; lia)
                (String (pretty_N_char (x `mod` 10)) s))
      as (d & p & Hgo & Hd & Hp & Hparse & _).
    destruct (pretty_N_char_digit (x `mod` 10)%N
                ltac:(apply N.mod_lt; lia)) as [Hdig Hval].
    exists (d +:+ String (pretty_N_char (x `mod` 10)) EmptyString), (10 * p).
    split; [|split; [|split; [|split]]].
    + rewrite Hgo, string_app_assoc. reflexivity.
    + rewrite all_digits_app, Hd. cbn [all_digits]. now rewrite Hdig.
    + lia.
    + intros acc. rewrite parse_digits_app, Hparse. cbn [parse_digits].
      rewrite Hval. pose proof (N.div_mod x 10 ltac:(lia)) as Hdm.
      lia.
    + intros _. destruct d; discriminate.
Qed.

(** The decimal rendering of [n] is a run of digits that spells [n]. *)
Lemma digits_of_pretty (n : nat) :
  is_index (pretty n) = true /\ parse_digits 0 (pretty n) = Z.of_nat n.
Proof.
  unfold pretty, pretty_nat, pretty, pretty_N.
  destruct (decide (N.of_nat n = 0%N)) as [E|E].
  - assert (n = 0%nat) as -> by lia. split; reflexivity.
  - destruct (pretty_N_go_digits (N.of_nat n) EmptyString)
      as (d & p & Hgo & Hd & Hp & Hparse & Hne).
    rewrite Hgo, string_app_nil_r. split.
    + destruct d; [exfalso; apply Hne; [lia | reflexivity] | exact Hd].
    + rewrite Hparse. lia.
Qed.

Lemma parse_digits_lower (s : string) :
  all_digits s = true -> forall acc, 0 <= acc -> 0 <= parse_digits acc s.
Proof.
  induction s as [|ch s IH]; intros Hs acc Hacc; [exact Hacc|].
  cbn [all_digits] in Hs. apply andb_prop in Hs as [Hch Hs].
  cbn [parse_digits]. apply IH; [exact Hs|].
  unfold is_digit in Hch. apply andb_prop in Hch as [Hlo _].
  apply Nat.leb_le in Hlo. lia.
Qed.

Lemma round_double_small (z : Z) : z < 2 ^ 53 -> round_double z = z.
Proof.
  intros Hz. unfold round_double. apply Z.ltb_lt in Hz. now rewrite Hz.
Qed.

Lemma round_double_nonneg (z : Z) : 0 <= z -> 0 <= round_double z.
Proof.
  intros Hz. unfold round_double. destruct (Z.ltb z (2 ^ 53)); [exact Hz|].
  cbv zeta. apply Z.shiftl_nonneg.
  assert (Hq : 0 <= Z.shiftr z (Z.log2 z - 52)) by now apply Z.shiftr_nonneg.
  repeat match goal with |- context [if ?b then _ else _] => destruct b end; lia.
Qed.

Lemma number_small (z : Z) : z < 2 ^ 53 -> number z = VNum z.
Proof.
  intros Hz. unfold number.
  assert (Hlt : z < 2 ^ 1024)
    by (eapply Z.lt_trans; [exact Hz | reflexivity]).
  apply Z.ltb_lt in Hlt. now rewrite Hlt.
Qed.

(** Below 2^53 the number of a numeric name is the integer it spells. *)
Lemma index_of_pretty (n : nat) :
  Z.of_nat n < 2 ^ 53 ->
  is_index (pretty n) = true
  /\ parseInt10 (pretty n) = Z.of_nat n
  /\ number (parseInt10 (pretty n)) = VNum (Z.of_nat n).
Proof.
  intros Hn. destruct (digits_of_pretty n) as [Hidx Hparse].
  assert (Hp : parseInt10 (pretty n) = Z.of_nat n).
  { unfold parseInt10. rewrite Hparse. now apply round_double_small. }
  split; [exact Hidx|]. split; [exact Hp|].
  rewrite Hp. now apply number_small.
Qed.

Lemma parseInt10_nonneg (name : string) :
  is_index name = true -> 0 <= parseInt10 name.
Proof.
  intros H. unfold parseInt10. apply round_double_nonneg.
  apply parse_digits_lower; [|lia].
  destruct name; [discriminate | exact H].
Qed.

(** ** wrap *)

Lemma primitive_name_spec (n : string) :
  existsb (String.eqb n) primitive_names = true <-> In n primitive_names.
Proof.
  rewrite existsb_exists. split.
  - intros [x [Hin Heq]]. apply String.eqb_eq in Heq. now subst.
  - intros Hin. exists n. split; [assumption | apply String.eqb_refl].
Qed.

Lemma primitive_name_not_none (m n : string) :
  In n primitive_names ->
  String.eqb m "builtins" && String.eqb n "NoneType" = false.
Proof.
  intros Hin. simpl in Hin.
  destruct Hin as [<-|[<-|[<-|[<-|[<-|[<-|[]]]]]]];
    simpl; apply andb_false_r.
Qed.

(** C1.  [wrap] answers a null or undefined input unchanged, without a
    single call; a value whose type identity resolves to
    ('builtins', 'NoneType') becomes null; and a handle whose type name is one
    of int, int64, float, float64, bool, str is asked for its primitive,
    which is the answer as it stands: the trace ends with that call, no
    delegator is applied and no back reference is written. *)
Theorem wrap_null_none_primitive :
  (forall T s, is_nullish T = true -> wrap T s = (Ok T, s, []))
  /\ (forall T s m n s1 t1,
        is_nullish T = false ->
        getTypeInfo T s = (Ok (TypeInfo m n), s1, t1) ->
        m = "builtins" -> n = "NoneType" ->
        wrap T s = (Ok VNull, s1, t1))
  /\ (forall h s m n s1 t1,
        getTypeInfo (VHandle h) s = (Ok (TypeInfo m n), s1, t1) ->
        In n primitive_names ->
        wrap (VHandle h) s =
          (fst (native value (N_toPrimitive h) (world s1)),
           State (snd (native value (N_toPrimitive h) (world s1))) (marks s1),
           t1 ++ [Ev (N_toPrimitive h)])).
Proof.
  split; [|split].
  - intros T s HT. unfold wrap. rewrite HT. reflexivity.
  - intros T s m n s1 t1 HT Hty -> ->. unfold wrap, bind. rewrite HT, Hty.
    simpl. now rewrite app_nil_r.
  - intros h s m n s1 t1 Hty Hin. unfold wrap.
    change (is_nullish (VHandle h)) with false. cbv iota.
    unfold bind at 1. rewrite Hty. cbn [ti_module ti_name].
    rewrite (primitive_name_not_none m n Hin).
    apply primitive_name_spec in Hin. rewrite Hin.
    unfold method, do_call.
    destruct (native value (N_toPrimitive h) (world s1)) as [r w]. reflexivity.
Qed.

Lemma primitive_name_false (n : string) :
  ~ In n primitive_names -> existsb (String.eqb n) primitive_names = false.
Proof.
  intros Hn. destruct (existsb (String.eqb n) primitive_names) eqn:E; [|reflexivity].
  apply primitive_name_spec in E. contradiction.
Qed.


(** ** Running a computation step by step *)

Lemma bind_ok {A B} (m : M A) (k : A -> M B) s a s1 t1 :
  m s = (Ok a, s1, t1) ->
  bind m k s = (let '(r, s2, t2) := k a s1 in (r, s2, t1 ++ t2)).
Proof. intros H. unfold bind. rewrite H. reflexivity. Qed.

Lemma bind_raise {A B} (m : M A) (k : A -> M B) s e s1 t1 :
  m s = (Raise e, s1, t1) ->
  bind m k s = (Raise e, s1, t1).
Proof. intros H. unfold bind. rewrite H. reflexivity. Qed.

Lemma do_call_run {X} (c : call X) s r w :
  native X c (world s) = (r, w) ->
  do_call c s = (r, State w (marks s), [Ev c]).
Proof. intros H. unfold do_call. rewrite H. reflexivity. Qed.

(** ** The GET trap *)

Lemma bind_ret_r {A} (m : M A) s : bind m (fun a => ret a) s = m s.
Proof.
  unfold bind, ret. destruct (m s) as [[[a|e] s1] t1]; [|reflexivity].
  now rewrite app_nil_r.
Qed.

(** The two lists of [_internalWrap] name the same properties. *)
Lemma last_flag_none (name : propname) (l1 : list (propname * value)) :
  forall l2 : list (propname * bool),
    map fst l1 = map fst l2 ->
    assoc_last name l1 = None -> last_flag name l2 = None.
Proof.
  induction l1 as [|[k v] l1 IH]; intros [|[k' b] l2] Hk Hn;
    try discriminate; [reflexivity|].
  cbn [map fst] in Hk. inversion Hk; subst k'. cbn [assoc_last] in Hn.
  cbn [last_flag]. destruct (assoc_last name l1); [discriminate|].
  rewrite (IH l2 ltac:(assumption) eq_refl).
  destruct (propname_eqb k name); [discriminate | reflexivity].
Qed.

Lemma not_owned_is_loose (T src : value) (name : propname) :
  has_own T src name = false -> target_lock src name = Loose.
Proof.
  unfold has_own, target_own, target_lock. intros H.
  destruct (assoc_last name (installed T)) eqn:Ea; [discriminate|].
  rewrite (last_flag_none name (installed T) installed_configurable eq_refl Ea).
  destruct (own_prop src name); [discriminate | reflexivity].
Qed.

(** A read through the proxy: the trap, then the check of the engine. *)
Lemma get_member_proxy (T src : value) (name : propname) s :
  get_member (VProxy T src) name s =
    match trap_get T src name s with
    | (Ok v, s', t) =>
        if get_refused T src name
        then (Raise (VTypeError "'get' on proxy: the trap did not answer the actual value"),
              s', t)
        else (Ok v, s', t)
    | (Raise e, s', t) => (Raise e, s', t)
    end.
Proof.
  cbn [get_member]. unfold bind.
  destruct (trap_get T src name s) as [[[v|e] s'] t]; [|reflexivity].
  destruct (get_refused T src name); unfold raise, ret; now rewrite app_nil_r.
Qed.


(** ** The SET trap *)

Lemma not_failed_spec (r : Z) : not_failed r = true <-> r <> -1.
Proof.
  unfold not_failed. rewrite negb_true_iff, Z.eqb_neq. reflexivity.
Qed.

(** An assignment through the proxy: the trap, then the check of the
    engine. *)
Lemma set_member_run (T src : value) (name : propname) (v : value) s :
  set_member T src name v s =
    match trap_set T name v s with
    | (Ok ok, s', t) =>
        if ok && set_refused T src name v
        then (Raise (VTypeError "'set' on proxy: the target holds another value"),
              s', t)
        else (Ok ok, s', t)
    | (Raise e, s', t) => (Raise e, s', t)
    end.
Proof.
  unfold set_member, bind.
  destruct (trap_set T name v s) as [[[ok|e] s'] t]; [|reflexivity].
  destruct (ok && set_refused T src name v); unfold raise, ret;
    now rewrite app_nil_r.
Qed.


(** ** Iteration *)

Lemma index_gets_app h t1 t2 :
  index_gets h (t1 ++ t2) = index_gets h t1 ++ index_gets h t2.
Proof. apply flat_map_app. Qed.

Lemma quiet_ret h {A} (a : A) : quiet h (ret a).
Proof. intros s r s' t H. inversion H. reflexivity. Qed.

Lemma quiet_raise h {A} (e : value) : quiet h (@raise A e).
Proof. intros s r s' t H. inversion H. reflexivity. Qed.

Lemma quiet_bind h {A B} (m : M A) (k : A -> M B) :
  quiet h m -> (forall a, quiet h (k a)) -> quiet h (bind m k).
Proof.
  intros Hm Hk s r s' t H. unfold bind in H.
  destruct (m s) as [[[a|e] s1] t1] eqn:Em.
  - destruct (k a s1) as [[r2 s2] t2] eqn:Ek. inversion H; subst.
    rewrite index_gets_app, (Hm _ _ _ _ Em), (Hk _ _ _ _ _ Ek). reflexivity.
  - inversion H; subst. exact (Hm _ _ _ _ Em).
Qed.

Lemma quiet_call h {X} (c : call X) :
  index_get h (Ev c) = [] -> quiet h (do_call c).
Proof.
  intros Hc s r s' t H. unfold do_call in H.
  destruct (native X c (world s)) as [r0 w]. inversion H; subst.
  unfold index_gets. cbn [flat_map]. rewrite Hc. reflexivity.
Qed.

Lemma quiet_method h {X} (T : value) (c : handle -> call X) :
  (forall h', index_get h (Ev (c h')) = []) -> quiet h (method T c).
Proof.
  intros Hc. unfold method.
  destruct T; try apply quiet_raise. apply quiet_call, Hc.
Qed.

Ltac quiet_steps :=
  repeat first
    [ apply quiet_ret
    | apply quiet_raise
    | apply quiet_method; intros; reflexivity
    | apply quiet_call; reflexivity
    | apply quiet_bind; [| intros ? ] ].

Lemma quiet_getTypeInfo h T : quiet h (getTypeInfo T).
Proof. unfold getTypeInfo. quiet_steps. Qed.

Lemma quiet_seq_length h T : quiet h (seq_length T).
Proof. unfold seq_length. quiet_steps. Qed.

Lemma quiet_wrap h T : quiet h (wrap T).
Proof.
  unfold wrap. destruct (is_nullish T); [apply quiet_ret|].
  apply quiet_bind; [apply quiet_getTypeInfo | intros ty].
  destruct (_ && _); [apply quiet_ret|].
  destruct (existsb _ _); [quiet_steps|].
  apply quiet_bind; [quiet_steps | intros c].
  apply quiet_bind.
  { destruct (slot_function _); quiet_steps. }
  intros src. apply quiet_bind.
  { unfold _internalWrap. cbv zeta. destruct (is_object _); quiet_steps. }
  intros wrapped. apply quiet_bind; [|intros ?; apply quiet_ret].
  destruct T; try apply quiet_raise.
  intros s r s' t H. inversion H. reflexivity.
Qed.

Lemma item_run_index_gets h i s r s' t :
  (x <- do_call (N_getitem h (VNum i)) ;; wrap x) s = (r, s', t) ->
  index_gets h t = [i].
Proof.
  unfold bind, do_call. intros H.
  destruct (native value (N_getitem h (VNum i)) (world s)) as [[x|e] w].
  - destruct (wrap x (State w (marks s))) as [[r2 s2] t2] eqn:Ew.
    inversion H; subst. simpl. rewrite Nat.eqb_refl. simpl.
    fold (index_gets h t2). now rewrite (quiet_wrap h x _ _ _ _ Ew).
  - inversion H; subst. simpl. now rewrite Nat.eqb_refl.
Qed.

(** One step over a sequence, told from what the length query answered in
    the state of that step. *)
Lemma seq_step_run h index s n s1 t1 :
  seq_length (VHandle h) s = (Ok (VNum n), s1, t1) ->
  seq_step (VHandle h) index s =
    if Z.leb n index then (Ok (true, VUndefined), s1, t1)
    else
      match (x <- do_call (N_getitem h (VNum index)) ;; wrap x) s1 with
      | (Ok v, s2, t2) => (Ok (false, v), s2, t1 ++ t2)
      | (Raise e, s2, t2) => (Raise e, s2, t1 ++ t2)
      end.
Proof.
  intros Hlen. unfold seq_step. erewrite bind_ok by exact Hlen.
  unfold js_ge, to_number. destruct (Z.leb n index).
  - unfold ret. now rewrite app_nil_r.
  - unfold method. unfold bind at 1 3.
    destruct (do_call (N_getitem h (VNum index)) s1) as [[[x|e] s2] t2];
      [|reflexivity].
    unfold bind, ret.
    destruct (wrap x s2) as [[[v|e] s3] t3]; simpl; now rewrite ?app_nil_r.
Qed.

Lemma iterate_seq_item fuel h cursor s n s1 t1 v s2 t2 :
  seq_length (VHandle h) s = (Ok (VNum n), s1, t1) ->
  advance cursor < n ->
  (x <- do_call (N_getitem h (VNum (advance cursor))) ;; wrap x) s1
    = (Ok v, s2, t2) ->
  iterate (S fuel) true (VHandle h) cursor s =
    match iterate fuel true (VHandle h) (Some (advance cursor)) s2 with
    | (Ok rest, s3, t3) => (Ok (v :: fst rest, snd rest), s3, (t1 ++ t2) ++ t3)
    | (Raise e, s3, t3) => (Raise e, s3, (t1 ++ t2) ++ t3)
    end.
Proof.
  intros Hlen Hlt Hitem. cbn [iterate next_of seq_next fst snd].
  assert (Hstep : seq_step (VHandle h) (advance cursor) s
                  = (Ok (false, v), s2, t1 ++ t2)).
  { rewrite (seq_step_run _ _ _ _ _ _ Hlen).
    apply Z.leb_gt in Hlt. rewrite Hlt, Hitem. reflexivity. }
  erewrite bind_ok by exact Hstep. cbn [fst snd]. unfold bind, ret.
  destruct (iterate fuel true (VHandle h) (Some (advance cursor)) s2)
    as [[[rest|e] s3] t3]; [|reflexivity].
  now rewrite app_nil_r.
Qed.

Lemma iterate_seq_done fuel h cursor s n s1 t1 :
  seq_length (VHandle h) s = (Ok (VNum n), s1, t1) ->
  n <= advance cursor ->
  iterate (S fuel) true (VHandle h) cursor s = (Ok ([], true), s1, t1).
Proof.
  intros Hlen Hle. cbn [iterate next_of seq_next fst snd].
  assert (Hstep : seq_step (VHandle h) (advance cursor) s
                  = (Ok (true, VUndefined), s1, t1)).
  { rewrite (seq_step_run _ _ _ _ _ _ Hlen).
    apply Z.leb_le in Hle. now rewrite Hle. }
  erewrite bind_ok by exact Hstep. cbn [fst snd]. unfold ret.
  now rewrite app_nil_r.
Qed.

Lemma seq_length_trace (b : handle) (T : value) s v s1 t1 :
  builtinsT = VHandle b ->
  seq_length T s = (Ok v, s1, t1) -> length_query b T t1.
Proof.
  intros Hb. unfold seq_length. rewrite Hb. unfold bind, method, do_call.
  intros H.
  destruct (native value (N_getitem b (VStr "len")) (world s)) as [[len|?] w1];
    [|discriminate].
  destruct len; try discriminate. cbn [world] in H.
  destruct (native value (N_invoke T0 [asHandleObject T]) w1) as [[n|?] w2];
    [|discriminate].
  destruct n; try discriminate. cbn [world] in H.
  destruct (native value (N_toPrimitive T1) w2) as [[x|?] w3]; [|discriminate].
  inversion H; subst. exists T0, T1. reflexivity.
Qed.

Lemma seq_step_starts (b : handle) (T : value) (index : Z) s r s' t :
  builtinsT = VHandle b ->
  seq_step T index s = (r, s', t) ->
  exists t', t = Ev (N_getitem b (VStr "len")) :: t'.
Proof.
  intros Hb. unfold seq_step, seq_length. rewrite Hb.
  unfold method at 1. unfold bind at 1 2 3, do_call at 1. intros H.
  destruct (native value (N_getitem b (VStr "len")) (world s)) as [[len|e] w1].
  - match type of H with
    | context [match ?m ?st with _ => _ end] =>
        destruct (m st) as [[[x|e] s2] t2]
    end.
    + match type of H with
      | context [match ?m ?st with _ => _ end] =>
          destruct (m st) as [[[y|e] s3] t3]
      end.
      * match type of H with
        | (let (_, _) := ?m in _) = _ => destruct m as [[r4 s4] t4]
        end.
        inversion H; subst. eexists. reflexivity.
      * inversion H; subst. eexists. reflexivity.
    + inversion H; subst. eexists. reflexivity.
  - inversion H; subst. eexists. reflexivity.
Qed.


(** ** The CONSTRUCT trap *)

Lemma proxy_setattr_member (T src : value) s :
  get_member (VProxy T src) (PStr "__setattr__") s =
    (Ok (VBound (VCap CapSetattr T) (VProxy T src)), s, []).
Proof. reflexivity. Qed.

Lemma copy_member_run (hi : handle) (src : value) (nv : string * value) s r w :
  native Z (N_setattr hi (VStr (fst nv)) (snd nv)) (world s) = (Ok r, w) ->
  (sa <- get_member (VProxy (VHandle hi) src) (PStr "__setattr__") ;;
   call_value sa (VProxy (VHandle hi) src) [VStr (fst nv); snd nv]) s =
    (Ok (VNum r), State w (marks s), [Ev (N_setattr hi (VStr (fst nv)) (snd nv))]).
Proof.
  intros Hset. erewrite bind_ok by apply proxy_setattr_member.
  cbn [call_value capability_call arg nth]. unfold method.
  erewrite bind_ok by (apply do_call_run; exact Hset). reflexivity.
Qed.

Lemma copy_members_run (hi : handle) (src : value) (l : list (string * value)) :
  (forall n v w, exists r w', native Z (N_setattr hi n v) w = (Ok r, w')) ->
  forall s, exists w',
    forM_ l (fun nv =>
               sa <- get_member (VProxy (VHandle hi) src) (PStr "__setattr__") ;;
               call_value sa (VProxy (VHandle hi) src) [VStr (fst nv); snd nv]) s =
      (Ok tt, State w' (marks s),
       map (fun nv => Ev (N_setattr hi (VStr (fst nv)) (snd nv))) l).
Proof.
  intros Hset. induction l as [|nv l IH]; intros s.
  - exists (world s). destruct s. reflexivity.
  - destruct (Hset (VStr (fst nv)) (snd nv) (world s)) as [r [w Hr]].
    destruct (IH (State w (marks s))) as [w' Hrest].
    exists w'. cbn [forM_ map].
    erewrite bind_ok by (apply copy_member_run; exact Hr).
    rewrite Hrest. reflexivity.
Qed.

(** C8.  Used as a constructor, the proxy over [h] invokes the handle with
    the arguments of the construction and wraps the answer.  When that is a
    proxy [obj] over the new instance [hi]: the member [__init__] of [obj] is
    read and called with an empty argument list (for a callable proxy over a
    foreign method [hm] that is the foreign invocation of [hm] with no
    argument, whatever the arguments of the construction were), then every
    name [getOwnPropertyNames] lists for the prototype of the subclass, save
    "constructor", is written on [hi] by one foreign attribute-set, in order;
    the answer is [obj]. *)
Theorem construct_protocol (h hi : handle) (src : value) (args : list value)
    (newClass_proto : list (string * value))
    (s s2 s3 s4 : state) (w1 : W) (r init x : value) (t2 t3 t4 : list event) :
  let obj := VProxy (VHandle hi) src in
  native value (N_invoke h args) (world s) = (Ok r, w1) ->
  wrap r (State w1 (marks s)) = (Ok obj, s2, t2) ->
  get_member obj (PStr "__init__") s2 = (Ok init, s3, t3) ->
  call_value init obj [] s3 = (Ok x, s4, t4) ->
  (forall n v w, exists r' w', native Z (N_setattr hi n v) w = (Ok r', w')) ->
  (exists w5,
     trap_construct (VHandle h) args newClass_proto s =
       (Ok obj, State w5 (marks s4),
        Ev (N_invoke h args) :: t2 ++ t3 ++ t4 ++
        map (fun nv => Ev (N_setattr hi (VStr (fst nv)) (snd nv)))
            (declared_members newClass_proto)))
  /\ (forall hm srcm this, is_function srcm = true ->
        call_value (VProxy (VHandle hm) srcm) this [] =
          (y <- do_call (N_invoke hm []) ;; wrap y)).
Proof.
  intros obj Hinv Hwrap Hinit Hcall Hset. split.
  - destruct (copy_members_run hi src (declared_members newClass_proto) Hset s4)
      as [w5 Hcopy].
    exists w5. unfold trap_construct, method.
    erewrite bind_ok by (apply do_call_run; exact Hinv).
    erewrite bind_ok by exact Hwrap.
    erewrite bind_ok by exact Hinit.
    erewrite bind_ok by exact Hcall.
    fold (declared_members newClass_proto). fold obj in Hcopy.
    erewrite bind_ok by exact Hcopy.
    unfold ret. cbn [app]. now rewrite app_nil_r.
  - intros hm srcm this Hfn. cbn [call_value]. rewrite Hfn. reflexivity.
Qed.

(** ** kwargs *)

Lemma kwargs_location_fresh (h : heap) : h !! fresh (dom h) = None.
Proof. apply not_elem_of_dom, is_fresh. Qed.

(** C9.  [kwargs] throws the TypeError exactly for the inputs whose
    [typeof] is not 'object' (42 is one), and for every other input answers
    a new object that carries the tag [KWARGS_NAME] with the value true.
    The test is [typeof], not "is an object": null, whose [typeof] is
    'object', is accepted and yields an object with the tag; a function,
    which is an object, is refused. *)
Theorem kwargs_type_check (input : value) (h : heap) :
  (typeof input <> "object" ->
   kwargs input h = (Raise (VTypeError "input must be a string."), h))
  /\ kwargs (VNum 42) h = (Raise (VTypeError "input must be a string."), h)
  /\ (typeof input = "object" ->
      exists o props,
        kwargs input h = (Ok (VObj o), <[o := props]> h)
        /\ props !! PStr KWARGS_NAME = Some (Property (VBool true) true))
  /\ (exists o props,
        kwargs VNull h = (Ok (VObj o), <[o := props]> h)
        /\ props !! PStr KWARGS_NAME = Some (Property (VBool true) true))
  /\ (forall f, kwargs (VFun f) h = (Raise (VTypeError "input must be a string."), h)).
Proof.
  assert (Hok : forall i, typeof i = "object" ->
            exists o props,
              kwargs i h = (Ok (VObj o), <[o := props]> h)
              /\ props !! PStr KWARGS_NAME = Some (Property (VBool true) true)).
  { intros i Hty. unfold kwargs. rewrite Hty. cbn [String.eqb negb].
    exists (fresh (dom h)), (kwargs_object h i). split.
    - reflexivity.
    - unfold kwargs_object. apply lookup_insert_eq. }
  split; [|split; [|split; [|split]]].
  - intros Hty. unfold kwargs.
    destruct (String.eqb (typeof input) "object") eqn:E; [|reflexivity].
    apply String.eqb_eq in E. contradiction.
  - reflexivity.
  - apply Hok.
  - apply Hok. reflexivity.
  - reflexivity.
Qed.

Lemma kwargs_object_other (h : heap) (input : value) (k : propname) :
  k <> PStr KWARGS_NAME ->
  kwargs_object h input !! k =
    (fun v => Property v true) <$> (enumerable_own h input !! k).
Proof.
  intros Hk. unfold kwargs_object.
  rewrite lookup_insert_ne by (symmetry; exact Hk). apply lookup_fmap.
Qed.


(** ** with *)

Section WithScope.
(** A context object [ctx] of the host whose [__enter__] and [__exit__] are
    the functions [en] and [ex], and a callback [fn]. *)
Variables (c en ex : nat) (fn : value).
Hypothesis ctx_enter : read_prop (VObj c) (PStr "__enter__") = VFun en.
Hypothesis ctx_exit : read_prop (VObj c) (PStr "__exit__") = VFun ex.

Let ctx := VObj c.
Let ENTER := H_apply (VFun en) ctx [].
Let EXIT (a b d : value) := H_apply (VFun ex) ctx [a; b; d].

Lemma ctx_member_enter s :
  get_member ctx (PStr "__enter__") s = (Ok (VFun en), s, []).
Proof. unfold ctx. cbn [get_member]. unfold ret. now rewrite ctx_enter. Qed.

Lemma ctx_member_exit s :
  get_member ctx (PStr "__exit__") s = (Ok (VFun ex), s, []).
Proof. unfold ctx. cbn [get_member]. unfold ret. now rewrite ctx_exit. Qed.

(** [fn] is not callable: exit is called once with three nulls, and the
    TypeError is thrown synchronously. *)
Lemma with_not_callable s :
  is_function fn = false ->
  with_ ctx fn s =
    match native value (EXIT VNull VNull VNull) (world s) with
    | (Ok _, w) =>
        (Raise (VTypeError "the `fn` must be a function."), State w (marks s),
         [Ev (EXIT VNull VNull VNull)])
    | (Raise e, w) => (Raise e, State w (marks s), [Ev (EXIT VNull VNull VNull)])
    end.
Proof.
  intros Hfn. unfold with_, ctx. cbn [get_member].
  rewrite ctx_enter, ctx_exit. unfold bind, ret.
  change (is_function (VFun en)) with true.
  change (is_function (VFun ex)) with true. cbn [negb]. cbv beta iota.
  rewrite Hfn. cbn [negb call_value]. cbv beta iota.
  unfold do_call, raise, EXIT, ctx.
  destruct (native value (H_apply (VFun ex) (VObj c) [VNull; VNull; VNull]) (world s))
    as [[x|e] w]; reflexivity.
Qed.

(** The catch clause on a thrown null or undefined: reading [err.ptype]
    throws before exit is called. *)
Lemma with_catch_nullish err s :
  is_nullish err = true ->
  with_catch ctx err s = (Raise (VTypeError "Cannot read properties"), s, []).
Proof.
  intros Herr. unfold with_catch, ctx. cbn [get_member]. unfold bind, ret.
  destruct err; try discriminate; reflexivity.
Qed.

(** The catch clause on an error object of the host or of the foreign
    runtime: exit is called once with the three marker objects. *)
Lemma with_catch_object o s :
  let err := VObj o in
  let triple := [asHandleObject (read_prop err (PStr "ptype"));
                 asHandleObject (read_prop err (PStr "pvalue"));
                 asHandleObject (read_prop err (PStr "ptrace"))] in
  with_catch ctx err s =
    match native value (H_apply (VFun ex) ctx triple) (world s) with
    | (Ok handled, w) =>
        (if truthy handled then Ok true else Raise err, State w (marks s),
         [Ev (H_apply (VFun ex) ctx triple)])
    | (Raise e, w) => (Raise e, State w (marks s), [Ev (H_apply (VFun ex) ctx triple)])
    end.
Proof.
  intros err triple. subst err triple. unfold with_catch, ctx. cbn [get_member].
  rewrite ctx_exit. unfold bind, ret. cbn [call_value]. cbv beta iota.
  unfold do_call.
  destruct (native value (H_apply (VFun ex) (VObj c) _) (world s))
    as [[handled|e] w]; [|reflexivity].
  destruct (truthy handled); unfold raise; reflexivity.
Qed.

Lemma bind_only_true {A} (m : M A) (k : A -> M bool) :
  (forall a s b s' t, k a s = (Ok b, s', t) -> b = true) ->
  forall s b s' t, bind m k s = (Ok b, s', t) -> b = true.
Proof.
  intros Hk s b s' t H. unfold bind in H.
  destruct (m s) as [[[a|e] s1] t1]; [|discriminate].
  destruct (k a s1) as [[r2 s2] t2] eqn:Ek.
  inversion H; subst. exact (Hk _ _ _ _ _ Ek).
Qed.

Lemma with_catch_hit err s b s' t :
  with_catch ctx err s = (Ok b, s', t) -> b = true.
Proof.
  unfold with_catch.
  repeat (apply bind_only_true; intros ?).
  destruct (truthy _); unfold ret, raise; intros ? ? ? ? H; congruence.
Qed.

Lemma with_try_run (f : nat) s :
  let FN v := H_apply (VFun f) VUndefined [v] in
  with_try ctx (VFun f) s =
    match native value ENTER (world s) with
    | (Ok v, w1) =>
        match native value (FN v) w1 with
        | (Ok _, w2) => (Ok false, State w2 (marks s), [Ev ENTER; Ev (FN v)])
        | (Raise err, w2) =>
            prepend [Ev ENTER; Ev (FN v)] (with_catch ctx err (State w2 (marks s)))
        end
    | (Raise err, w1) =>
        prepend [Ev ENTER] (with_catch ctx err (State w1 (marks s)))
    end.
Proof.
  intros FN. subst FN. unfold with_try, try_catch, bind, ENTER.
  unfold ctx at 1. cbn [get_member]. rewrite ctx_enter. unfold ret.
  cbn [call_value]. unfold do_call. cbv beta iota. fold ctx. cbn [world marks].
  destruct (native value (H_apply (VFun en) ctx []) (world s)) as [[v|err] w1];
    cbn [world marks].
  - destruct (native value (H_apply (VFun f) VUndefined [v]) w1) as [[x|err] w2];
      cbn [world marks].
    + reflexivity.
    + unfold prepend.
      destruct (with_catch ctx err (State w2 (marks s))) as [[r s'] t].
      reflexivity.
  - unfold prepend.
    destruct (with_catch ctx err (State w1 (marks s))) as [[r s'] t].
    reflexivity.
Qed.

Lemma with_finally_normal s :
  with_finally ctx false s =
    match native value (EXIT VNull VNull VNull) (world s) with
    | (Ok _, w) => (Ok tt, State w (marks s), [Ev (EXIT VNull VNull VNull)])
    | (Raise e, w) => (Raise e, State w (marks s), [Ev (EXIT VNull VNull VNull)])
    end.
Proof.
  unfold with_finally, bind, EXIT. unfold ctx at 1. cbn [get_member].
  rewrite ctx_exit. unfold ret. cbn [call_value]. unfold do_call.
  cbv beta iota. fold ctx.
  destruct (native value (H_apply (VFun ex) ctx [VNull; VNull; VNull]) (world s))
    as [[x|e] w]; reflexivity.
Qed.

Lemma with_body_caught err s1 prefix :
  match prepend prefix (with_catch ctx err s1) with
  | (Ok hit, s2, t1) =>
      match with_finally ctx hit s2 with
      | (r, s3, t2) => (r, s3, t1 ++ t2)
      end
  | (Raise e, s2, t1) =>
      match with_finally ctx true s2 with
      | (Ok _, s3, t2) => (Raise e, s3, t1 ++ t2)
      | (Raise e', s3, t2) => (Raise e', s3, t1 ++ t2)
      end
  end =
  match with_catch ctx err s1 with
  | (Ok _, s2, t) => (Ok tt, s2, prefix ++ t)
  | (Raise e, s2, t) => (Raise e, s2, prefix ++ t)
  end.
Proof.
  unfold prepend.
  destruct (with_catch ctx err s1) as [[[b|e] s2] t] eqn:E.
  - rewrite (with_catch_hit _ _ _ _ _ E). unfold with_finally, ret.
    now rewrite app_nil_r.
  - unfold with_finally, ret. now rewrite app_nil_r.
Qed.

(** [with] with a callable callback [f], told from what enter and the
    callback answer. *)
Lemma with_callable_run (f : nat) s :
  let FN v := H_apply (VFun f) VUndefined [v] in
  with_ ctx (VFun f) s =
    match native value ENTER (world s) with
    | (Ok v, w1) =>
        match native value (FN v) w1 with
        | (Ok _, w2) =>
            match native value (EXIT VNull VNull VNull) w2 with
            | (Ok _, w3) =>
                (Ok Fulfilled, State w3 (marks s),
                 [Ev ENTER; Ev (FN v); Ev (EXIT VNull VNull VNull)])
            | (Raise e, w3) =>
                (Ok (Rejected e), State w3 (marks s),
                 [Ev ENTER; Ev (FN v); Ev (EXIT VNull VNull VNull)])
            end
        | (Raise err, w2) =>
            settle (with_catch ctx err (State w2 (marks s))) [Ev ENTER; Ev (FN v)]
        end
    | (Raise err, w1) =>
        settle (with_catch ctx err (State w1 (marks s))) [Ev ENTER]
    end.
Proof.
  intros FN. unfold with_, bind. unfold ctx at 1 2. cbn [get_member].
  rewrite ctx_enter, ctx_exit. unfold ret.
  change (is_function (VFun en)) with true.
  change (is_function (VFun ex)) with true.
  change (is_function (VFun f)) with true. cbn [negb]. cbv beta iota.
  unfold async, with_body. rewrite with_try_run. subst FN. cbv beta.
  destruct (native value ENTER (world s)) as [[v|err] w1].
  - destruct (native value (H_apply (VFun f) VUndefined [v]) w1) as [[x|err] w2].
    + cbv beta iota. rewrite with_finally_normal. cbn [world marks].
      destruct (native value (EXIT VNull VNull VNull) w2) as [[y|e] w3];
        reflexivity.
    + rewrite with_body_caught. unfold settle.
      destruct (with_catch ctx err (State w2 (marks s))) as [[[b|e] s'] t];
        reflexivity.
  - rewrite with_body_caught. unfold settle.
    destruct (with_catch ctx err (State w1 (marks s))) as [[[b|e] s'] t];
      reflexivity.
Qed.

(** A throw of null or undefined from the callback: the catch clause throws
    on [err.ptype] before calling exit, the finally clause sees
    [hitException] set, and the promise rejects with that TypeError. *)
Lemma with_nullish_throw_skips_exit (f : nat) s v w1 e w2 :
  native value ENTER (world s) = (Ok v, w1) ->
  native value (H_apply (VFun f) VUndefined [v]) w1 = (Raise e, w2) ->
  is_nullish e = true ->
  with_ ctx (VFun f) s =
    (Ok (Rejected (VTypeError "Cannot read properties")), State w2 (marks s),
     [Ev ENTER; Ev (H_apply (VFun f) VUndefined [v])]).
Proof.
  intros Henter Hfn He. rewrite with_callable_run. cbv zeta.
  rewrite Henter, Hfn, (with_catch_nullish e _ He). reflexivity.
Qed.

(** A throw of an error object from the callback: exit is called once with
    the three marker objects; the promise rejects with the error itself
    when exit answers a falsy value and fulfils when it answers a truthy
    one. *)
Lemma with_object_throw_exits_once (f : nat) s v w1 o w2 :
  let err := VObj o in
  let triple := [asHandleObject (read_prop err (PStr "ptype"));
                 asHandleObject (read_prop err (PStr "pvalue"));
                 asHandleObject (read_prop err (PStr "ptrace"))] in
  native value ENTER (world s) = (Ok v, w1) ->
  native value (H_apply (VFun f) VUndefined [v]) w1 = (Raise err, w2) ->
  with_ ctx (VFun f) s =
    match native value (H_apply (VFun ex) ctx triple) w2 with
    | (Ok handled, w3) =>
        (Ok (if truthy handled then Fulfilled else Rejected err),
         State w3 (marks s),
         [Ev ENTER; Ev (H_apply (VFun f) VUndefined [v]);
          Ev (H_apply (VFun ex) ctx triple)])
    | (Raise e', w3) =>
        (Ok (Rejected e'), State w3 (marks s),
         [Ev ENTER; Ev (H_apply (VFun f) VUndefined [v]);
          Ev (H_apply (VFun ex) ctx triple)])
    end.
Proof.
  intros err triple Henter Hfn. rewrite with_callable_run. cbv zeta.
  rewrite Henter, Hfn. subst err. rewrite with_catch_object. cbv zeta.
  cbn [world marks]. fold triple.
  destruct (native value (H_apply (VFun ex) ctx triple) w2) as [[handled|e'] w3];
    [|reflexivity].
  destruct (truthy handled); reflexivity.
Qed.

End WithScope.

(** ** eval *)

Lemma interpolate_run (e : handle) (params : list value) :
  (forall k v w, exists r w', native Z (N_setitem e k v) w = (Ok r, w')) ->
  forall strs idx acc s,
    (idx + length strs = S (length params))%nat ->
    exists w',
      interpolate (VHandle e) params strs acc idx s =
        (Ok (acc +:+ reassemble strs idx), State w' (marks s),
         bindings e params idx (length strs - 1)).
Proof.
  intros Hset strs. induction strs as [|str rest IH]; intros idx acc s Hlen.
  - exists (world s). destruct s. cbn [interpolate reassemble].
    now rewrite string_app_nil_r.
  - cbn [interpolate]. destruct rest as [|str' rest'].
    + cbn [length] in Hlen.
      assert (Hidx : Nat.ltb idx (length params) = false)
        by (apply Nat.ltb_ge; lia).
      rewrite Hidx. exists (world s). destruct s. reflexivity.
    + cbn [length] in Hlen.
      assert (Hidx : Nat.ltb idx (length params) = true)
        by (apply Nat.ltb_lt; lia).
      rewrite Hidx.
      destruct (Hset (VStr (var_name idx)) (nth idx params VUndefined) (world s))
        as [r [w Hr]].
      destruct (IH (idx + 1)%nat ((acc +:+ str) +:+ var_name idx)
                  (State w (marks s))) as [w' Hrest].
      { cbn [length]. lia. }
      exists w'. unfold method.
      erewrite bind_ok by (apply do_call_run; exact Hr).
      rewrite Hrest. cbn [marks].
      replace (idx + 1)%nat with (S idx) by lia.
      remember (str' :: rest') as tail eqn:Htail.
      assert (Hre : reassemble (str :: tail) idx
                    = str +:+ var_name idx +:+ reassemble tail (S idx))
        by (subst tail; reflexivity).
      rewrite Hre, !string_app_assoc.
      assert (Hn : (length (str :: tail) - 1 = S (length tail - 1))%nat)
        by (subst tail; cbn [length]; lia).
      rewrite Hn. reflexivity.
Qed.

Section Namespace.
(** The global namespace is the foreign object [g]; [ns] reads its
    bindings off the foreign world.  The foreign runtime keeps a namespace
    to the calls that are handed it: no other call changes its bindings. *)
Variable g : handle.
Variable ns : W -> gmap string value.
Hypothesis frame :
  forall X (c : call X) w, targets g (Ev c) = false -> ns (snd (native X c w)) = ns w.

Lemma apart_ret {A} (a : A) : apart g ns (ret a).
Proof. intros s r s' t H. inversion H; subst. now split. Qed.

Lemma apart_raise {A} (e : value) : apart g ns (@raise A e).
Proof. intros s r s' t H. inversion H; subst. now split. Qed.

Lemma apart_bind {A B} (m : M A) (k : A -> M B) :
  apart g ns m -> (forall a, apart g ns (k a)) -> apart g ns (bind m k).
Proof.
  intros Hm Hk s r s' t H. unfold bind in H.
  destruct (m s) as [[[a|e] s1] t1] eqn:Em.
  - destruct (k a s1) as [[r2 s2] t2] eqn:Ek. inversion H; subst.
    destruct (Hm _ _ _ _ Em) as [Hn1 Ht1].
    destruct (Hk _ _ _ _ _ Ek) as [Hn2 Ht2].
    split; [congruence|]. rewrite existsb_app, Ht1, Ht2. reflexivity.
  - inversion H; subst. exact (Hm _ _ _ _ Em).
Qed.

Lemma apart_call {X} (c : call X) :
  targets g (Ev c) = false -> apart g ns (do_call c).
Proof.
  intros Hc s r s' t H. unfold do_call in H.
  pose proof (frame X c (world s) Hc) as Hf.
  destruct (native X c (world s)) as [r0 w]. inversion H; subst.
  split; [exact Hf|]. cbn [existsb]. rewrite Hc. reflexivity.
Qed.

Lemma apart_method {X} (T : value) (c : handle -> call X) :
  (forall h, targets g (Ev (c h)) = false) -> apart g ns (method T c).
Proof.
  intros Hc. unfold method.
  destruct T; try apply apart_raise. apply apart_call, Hc.
Qed.

Ltac apart_steps :=
  repeat first
    [ apply apart_ret
    | apply apart_raise
    | apply apart_method; intros; reflexivity
    | apply apart_call; reflexivity
    | apply apart_bind; [| intros ? ] ].

Lemma apart_getTypeInfo T : apart g ns (getTypeInfo T).
Proof. unfold getTypeInfo. apart_steps. Qed.

Lemma apart_copy T : apart g ns (copy T).
Proof. unfold copy. apart_steps. Qed.

Lemma apart_wrap T : apart g ns (wrap T).
Proof.
  unfold wrap. destruct (is_nullish T); [apply apart_ret|].
  apply apart_bind; [apply apart_getTypeInfo | intros ty].
  destruct (_ && _); [apply apart_ret|].
  destruct (existsb _ _); [apart_steps|].
  apply apart_bind; [apart_steps | intros cl].
  apply apart_bind.
  { destruct (slot_function _); apart_steps. }
  intros src. apply apart_bind.
  { unfold _internalWrap. cbv zeta. destruct (is_object _); apart_steps. }
  intros wrapped. apply apart_bind; [|intros ?; apply apart_ret].
  destruct T; try apply apart_raise.
  intros s r s' t H. inversion H. now split.
Qed.

Lemma apart_interpolate (e : handle) (params : list value) :
  e <> g ->
  forall strs acc idx, apart g ns (interpolate (VHandle e) params strs acc idx).
Proof.
  intros He strs. induction strs as [|str rest IH]; intros acc idx.
  - apply apart_ret.
  - cbn [interpolate]. destruct (Nat.ltb idx (length params)); [|apply IH].
    apply apart_bind; [|intros ?; apply IH].
    apply apart_call. cbn [targets]. now apply Nat.eqb_neq.
Qed.

Lemma copy_trace T s e s1 t1 :
  copy T s = (Ok (VHandle e), s1, t1) ->
  exists cm cf,
    t1 = [Ev (N_import (VStr "copy")); Ev (N_getattr cm (VStr "copy"));
          Ev (N_invoke cf [asHandleObject T])].
Proof.
  unfold copy, bind, do_call. intros H.
  destruct (native value (N_import (VStr "copy")) (world s)) as [[md|?] w1];
    [|discriminate].
  destruct md; try discriminate. unfold method, do_call in H. cbn [world] in H.
  destruct (native value (N_getattr T0 (VStr "copy")) w1) as [[fn'|?] w2];
    [|discriminate].
  destruct fn'; try discriminate. cbn [world] in H.
  destruct (native value (N_invoke T1 [asHandleObject T]) w2) as [[x|?] w3];
    [|discriminate].
  inversion H; subst. exists T0, T1. reflexivity.
Qed.

Lemma var_name_inj (i j : nat) : var_name i = var_name j -> i = j.
Proof.
  unfold var_name. intros Hij.
  apply String.app_inj in Hij. now apply (inj pretty) in Hij.
Qed.

Lemma var_name_digits (i : nat) :
  exists d,
    var_name i = "boa_eval_var_" +:+ d
    /\ is_index d = true /\ parse_digits 0 d = Z.of_nat i.
Proof.
  exists (pretty i). split; [reflexivity | apply digits_of_pretty].
Qed.

(** C6.  [eval] on a template of n+1 segments and n >= 1 values, when the
    copy of the global namespace is the foreign object [e] (another object
    than the global namespace) and set-item on it does not throw:
    the copy is made by [copy.copy] applied to the global namespace; each
    value is bound in [e], in order, under "boa_eval_var_" followed by its
    position in digits, a name no other position has; the source is the
    segments with those names in between, and
    it is executed, normalized, with [e] as globals and as locals; none of
    the calls targets the global namespace, whose bindings after the call
    are those before it, so that a generated name absent before is absent
    after. *)
Theorem eval_shadow_namespace (strs : list string) (params : list value)
    (s s1 : state) (t1 : list event) (e : handle) :
  globals = VHandle g ->
  length strs = S (length params) ->
  params <> [] ->
  copy globals s = (Ok (VHandle e), s1, t1) ->
  e <> g ->
  (forall k v w, exists r w', native Z (N_setitem e k v) w = (Ok r, w')) ->
  (exists cm cf,
     t1 = [Ev (N_import (VStr "copy")); Ev (N_getattr cm (VStr "copy"));
           Ev (N_invoke cf [asHandleObject globals])])
  /\ (exists w2,
        eval (Segments strs) params s =
          prepend (t1 ++ bindings e params 0 (length params))
            ((x <- do_call (N_eval (normalize (reassemble strs 0))
                              (VHandle e) (VHandle e)) ;;
              wrap x) (State w2 (marks s1))))
  /\ (forall r s' t,
        eval (Segments strs) params s = (r, s', t) ->
        ns (world s') = ns (world s)
        /\ existsb (targets g) t = false
        /\ forall i, ns (world s) !! var_name i = None ->
                     ns (world s') !! var_name i = None)
  /\ (forall i, exists d,
        var_name i = "boa_eval_var_" +:+ d
        /\ is_index d = true /\ parse_digits 0 d = Z.of_nat i)
  /\ (forall i j, var_name i = var_name j -> i = j).
Proof.
  intros _ Hlen Hparams Hcopy Heg Hset.
  destruct (interpolate_run e params Hset strs 0%nat EmptyString s1
              ltac:(simpl; lia)) as [w2 Hi].
  assert (Hrun :
    eval (Segments strs) params s =
      prepend (t1 ++ bindings e params 0 (length params))
        ((x <- do_call (N_eval (normalize (reassemble strs 0))
                          (VHandle e) (VHandle e)) ;;
          wrap x) (State w2 (marks s1)))).
  { destruct strs as [|a [|b rest]].
    - discriminate.
    - destruct params; [contradiction | discriminate].
    - remember (a :: b :: rest) as l eqn:Hl.
      assert (Hinner :
        (env <- copy globals ;;
         src <- interpolate env params l EmptyString 0 ;;
         ret (src, env)) s =
        (Ok (reassemble l 0, VHandle e), State w2 (marks s1),
         t1 ++ bindings e params 0 (length params))).
      { erewrite bind_ok by exact Hcopy. erewrite bind_ok by exact Hi.
        unfold ret. rewrite app_nil_r.
        replace (length l - 1)%nat with (length params) by lia. reflexivity. }
      unfold eval. rewrite Hl at 1. cbv iota.
      erewrite bind_ok by exact Hinner. cbn [fst snd]. reflexivity. }
  split; [exact (copy_trace _ _ _ _ _ Hcopy)|].
  split; [exists w2; exact Hrun|].
  split; [|split; [exact var_name_digits | exact var_name_inj]].
  intros r s' t Heval. rewrite Hrun in Heval. unfold prepend in Heval.
  destruct ((x <- do_call (N_eval (normalize (reassemble strs 0))
                             (VHandle e) (VHandle e)) ;;
             wrap x) (State w2 (marks s1))) as [[r3 s3] t3] eqn:Erest.
  inversion Heval; subst r3 s3 t. clear Heval.
  destruct (apart_copy _ _ _ _ _ Hcopy) as [Hn1 Ht1].
  destruct (apart_interpolate e params Heg _ _ _ _ _ _ _ Hi) as [Hn2 Ht2].
  assert (Hrest : apart g ns (x <- do_call (N_eval (normalize (reassemble strs 0))
                                        (VHandle e) (VHandle e)) ;;
                         wrap x)).
  { apply apart_bind; [|intros ?; apply apart_wrap].
    apply apart_call. cbn [targets is_handle].
    apply Nat.eqb_neq in Heg. now rewrite Heg. }
  destruct (Hrest _ _ _ _ Erest) as [Hn3 Ht3].
  cbn [world] in Hn2, Hn3.
  assert (Hns : ns (world s') = ns (world s)) by congruence.
  split; [exact Hns|]. split.
  - replace (length strs - 1)%nat with (length params) in Ht2 by lia.
    now rewrite !existsb_app, Ht1, Ht2, Ht3.
  - intros i Hi0. now rewrite Hns.
Qed.

End Namespace.

(** * Further properties *)

(** ** How many calls, and of what kind *)

Lemma bounded_ret P n {A} (a : A) : bounded P n (ret a).
Proof. intros s r s' t H. inversion H. split; [simpl; lia | reflexivity]. Qed.

Lemma bounded_raise P n {A} (e : value) : bounded P n (@raise A e).
Proof. intros s r s' t H. inversion H. split; [simpl; lia | reflexivity]. Qed.

Lemma bounded_weaken P a b {A} (m : M A) :
  (a <= b)%nat -> bounded P a m -> bounded P b m.
Proof.
  intros Hab Hm s r s' t H. destruct (Hm _ _ _ _ H) as [Hl Hp].
  split; [lia | exact Hp].
Qed.

Lemma bounded_bind P a b {A B} (m : M A) (k : A -> M B) :
  bounded P a m -> (forall x, bounded P b (k x)) -> bounded P (a + b) (bind m k).
Proof.
  intros Hm Hk s r s' t H. unfold bind in H.
  destruct (m s) as [[[x|e] s1] t1] eqn:Em.
  - destruct (k x s1) as [[r2 s2] t2] eqn:Ek. inversion H; subst.
    destruct (Hm _ _ _ _ Em) as [Hl1 Hp1]. destruct (Hk _ _ _ _ _ Ek) as [Hl2 Hp2].
    rewrite length_app, forallb_app, Hp1, Hp2. split; [lia | reflexivity].
  - inversion H; subst. destruct (Hm _ _ _ _ Em) as [Hl1 Hp1].
    split; [lia | exact Hp1].
Qed.

Lemma bounded_try P a b {A} (m : M A) (h : value -> M A) :
  bounded P a m -> (forall e, bounded P b (h e)) ->
  bounded P (a + b) (try_catch m h).
Proof.
  intros Hm Hh s r s' t H. unfold try_catch in H.
  destruct (m s) as [[[x|e] s1] t1] eqn:Em.
  - inversion H; subst. destruct (Hm _ _ _ _ Em) as [Hl1 Hp1].
    split; [lia | exact Hp1].
  - destruct (h e s1) as [[r2 s2] t2] eqn:Eh. inversion H; subst.
    destruct (Hm _ _ _ _ Em) as [Hl1 Hp1]. destruct (Hh _ _ _ _ _ Eh) as [Hl2 Hp2].
    rewrite length_app, forallb_app, Hp1, Hp2. split; [lia | reflexivity].
Qed.

Lemma bounded_call P {X} (c : call X) :
  P (Ev c) = true -> bounded P 1 (do_call c).
Proof.
  intros Hc s r s' t H. unfold do_call in H.
  destruct (native X c (world s)) as [r0 w]. inversion H; subst.
  simpl. rewrite Hc. split; [lia | reflexivity].
Qed.

Lemma bounded_method P {X} (T : value) (c : handle -> call X) :
  (forall h, P (Ev (c h)) = true) -> bounded P 1 (method T c).
Proof.
  intros Hc. unfold method.
  destruct T; try apply bounded_raise. apply bounded_call, Hc.
Qed.

Lemma bounded_set_mark P h v : bounded P 0 (set_mark h v).
Proof. intros s r s' t H. inversion H. split; [simpl; lia | reflexivity]. Qed.

Lemma bounded_getTypeInfo T : bounded inspects 6 (getTypeInfo T).
Proof.
  unfold getTypeInfo.
  repeat (apply (bounded_bind inspects 1);
          [apply bounded_method; intros; reflexivity | intros ?]).
  apply bounded_ret.
Qed.

Lemma bounded_wrap T : bounded inspects 8 (wrap T).
Proof.
  unfold wrap. destruct (is_nullish T); [apply bounded_ret|].
  apply (bounded_bind inspects 6 2); [apply bounded_getTypeInfo | intros ty].
  destruct (_ && _); [apply bounded_ret|].
  destruct (existsb _ _).
  { apply (bounded_weaken _ 1); [lia|]. apply bounded_method. intros; reflexivity. }
  apply (bounded_bind inspects 1 1);
    [apply bounded_method; intros; reflexivity | intros c].
  apply (bounded_bind inspects 1 0).
  { destruct (slot_function _); [apply bounded_call; reflexivity | apply bounded_raise]. }
  intros src. apply (bounded_bind inspects 0 0).
  { unfold _internalWrap. cbv zeta. destruct (is_object _);
      [apply bounded_ret | apply bounded_raise]. }
  intros wrapped. apply (bounded_bind inspects 0 0); [|intros ?; apply bounded_ret].
  destruct T; try apply bounded_raise. apply bounded_set_mark.
Qed.

Lemma bounded_get_item_fallback T name :
  bounded inspects 9 (get_item_fallback T name).
Proof.
  unfold get_item_fallback. apply (bounded_try inspects 9 0).
  - apply (bounded_bind inspects 1 8);
      [apply bounded_method; intros; reflexivity | intros r].
    destruct (is_nullish r); [apply bounded_ret | apply bounded_wrap].
  - intros e. destruct (is_nullish e); [apply bounded_raise | apply bounded_ret].
Qed.

(** X1.  Whatever it is given and whatever it is answered, [wrap] makes at
    most eight calls: the lookup and the invocation of [type], the two
    attribute reads with their renderings, the primitive or the callable
    query, the delegator.  It never sets an item or an attribute, executes,
    imports or steps an iterator. *)
Theorem wrap_only_inspects (T : value) (s : state) r s' t :
  wrap T s = (r, s', t) ->
  (length t <= 8)%nat /\ forallb inspects t = true.
Proof. apply bounded_wrap. Qed.

Lemma bounded_trap_get T src name : bounded inspects 10 (trap_get T src name).
Proof.
  unfold trap_get. destruct (_ || _); [apply bounded_ret|].
  destruct name as [str|y];
    [|apply (bounded_weaken _ 9); [lia | apply bounded_get_item_fallback]].
  destruct (is_index str).
  { apply (bounded_weaken _ (1 + 8)); [lia|].
    apply bounded_bind; [apply bounded_method; intros; reflexivity|].
    intros; apply bounded_wrap. }
  apply (bounded_bind inspects 1 9);
    [apply bounded_method; intros; reflexivity | intros b].
  destruct b; [|apply bounded_get_item_fallback].
  apply (bounded_bind inspects 1 8);
    [apply bounded_method; intros; reflexivity | intros; apply bounded_wrap].
Qed.


(** ** Assignment *)

Lemma keeps_ret {A} (a : A) : keeps_marks (ret a).
Proof. intros s r s' t H. now inversion H. Qed.

Lemma keeps_raise {A} (e : value) : keeps_marks (@raise A e).
Proof. intros s r s' t H. now inversion H. Qed.

Lemma keeps_bind {A B} (m : M A) (k : A -> M B) :
  keeps_marks m -> (forall x, keeps_marks (k x)) -> keeps_marks (bind m k).
Proof.
  intros Hm Hk s r s' t H. unfold bind in H.
  destruct (m s) as [[[x|e] s1] t1] eqn:Em.
  - destruct (k x s1) as [[r2 s2] t2] eqn:Ek. inversion H; subst.
    rewrite (Hk _ _ _ _ _ Ek). exact (Hm _ _ _ _ Em).
  - inversion H; subst. exact (Hm _ _ _ _ Em).
Qed.

Lemma keeps_call {X} (c : call X) : keeps_marks (do_call c).
Proof.
  intros s r s' t H. unfold do_call in H.
  destruct (native X c (world s)) as [r0 w]. now inversion H.
Qed.

Lemma keeps_method {X} (T : value) (c : handle -> call X) :
  keeps_marks (method T c).
Proof. unfold method. destruct T; try apply keeps_raise. apply keeps_call. Qed.

Ltac keeps_steps :=
  repeat first
    [ apply keeps_ret
    | apply keeps_raise
    | apply keeps_method
    | apply keeps_call
    | apply keeps_bind; [| intros ? ] ].

Lemma bounded_set_item_fallback h name v :
  bounded (assigns h) 2 (set_item_fallback (VHandle h) name v).
Proof.
  unfold set_item_fallback.
  apply (bounded_bind _ 1 1); [apply bounded_call; apply Nat.eqb_refl | intros r].
  apply (bounded_bind _ 1 0); [|intros; apply bounded_ret].
  destruct (Z.eqb r (-1));
    [apply bounded_call; apply Nat.eqb_refl | apply bounded_ret].
Qed.

Lemma bounded_trap_set h name v :
  bounded (assigns h) 3 (trap_set (VHandle h) name v).
Proof.
  unfold trap_set. destruct name as [str|y];
    [|apply (bounded_weaken _ 2); [lia | apply bounded_set_item_fallback]].
  destruct (is_index str).
  { apply (bounded_weaken _ (1 + 0)); [lia|].
    apply bounded_bind; [apply bounded_call; apply Nat.eqb_refl|].
    intros; apply bounded_ret. }
  apply (bounded_bind _ 1 2); [apply bounded_call; apply Nat.eqb_refl | intros b].
  destruct b; [|apply bounded_set_item_fallback].
  apply (bounded_weaken _ (1 + 0)); [lia|].
  apply bounded_bind; [apply bounded_call; apply Nat.eqb_refl|].
  intros; apply bounded_ret.
Qed.

(** X3.  An assignment through the proxy over [h] makes at most three
    calls, each an attribute query, an item-set or an attribute-set on [h]
    itself: nothing is wrapped on the way, and no back reference is
    written. *)
Theorem set_only_assigns (h : handle) (name : propname) (v : value) (s : state)
    r s' t :
  trap_set (VHandle h) name v s = (r, s', t) ->
  (length t <= 3)%nat /\ forallb (assigns h) t = true /\ marks s' = marks s.
Proof.
  intros H. destruct (bounded_trap_set h name v _ _ _ _ H) as [Hl Hp].
  split; [exact Hl | split; [exact Hp|]].
  revert H. generalize s r s' t. change (keeps_marks (trap_set (VHandle h) name v)).
  unfold trap_set, set_item_fallback.
  destruct name as [str|y]; [destruct (is_index str)|]; keeps_steps.
  - destruct x; keeps_steps. destruct (Z.eqb x (-1)); keeps_steps.
  - destruct (Z.eqb x (-1)); keeps_steps.
Qed.

(** ** The back reference *)

Lemma keeps_getTypeInfo T : keeps_marks (getTypeInfo T).
Proof. unfold getTypeInfo. keeps_steps. Qed.

(** X4.  The only back reference [wrap] ever writes is the proxy it
    answers, on the handle that proxy stands for.  A run that throws, or
    that answers its input, null or a primitive, writes none. *)
Theorem wrap_marks_its_answer (T : value) (s : state) r s' t :
  wrap T s = (r, s', t) ->
  marks s' = marks s
  \/ exists h src,
       T = VHandle h /\ r = Ok (VProxy T src)
       /\ marks s' = <[h := VProxy T src]> (marks s).
Proof.
  intros H. unfold wrap in H.
  destruct (is_nullish T); [left; now inversion H|].
  unfold bind at 1 in H.
  destruct (getTypeInfo T s) as [[[ty|e] s1] t1] eqn:E1;
    pose proof (keeps_getTypeInfo T _ _ _ _ E1) as K1;
    [|left; inversion H; subst; exact K1].
  destruct (_ && _); [left; inversion H; subst; exact K1|].
  destruct (existsb _ _).
  { destruct (method T N_toPrimitive s1) as [[r2 s2] t2] eqn:E2.
    left. inversion H; subst. rewrite <- K1. exact (keeps_method _ _ _ _ _ _ E2). }
  unfold bind at 1 in H.
  destruct (method T N_isCallable s1) as [[[c|e] s2] t2] eqn:E2;
    pose proof (keeps_method _ _ _ _ _ _ E2) as K2;
    [|left; inversion H; subst; congruence].
  unfold bind at 1 in H.
  match type of H with
  | context [match ?m s2 with _ => _ end] =>
      assert (K3 : keeps_marks m)
        by (destruct (slot_function _); keeps_steps);
      destruct (m s2) as [[[src|e] s3] t3] eqn:E3;
      apply K3 in E3
  end; [|left; inversion H; subst; congruence].
  unfold _internalWrap, bind in H. cbv zeta in H.
  destruct (is_object _); cbn in H; [|left; inversion H; subst; congruence].
  destruct T as [| | | | | | |h| | | | | | | | | | | |]; cbn in H;
    try (left; inversion H; subst; congruence).
  right. eexists h, _. inversion H; subst. cbn. repeat split. congruence.
Qed.

(** ** Index-like names *)

(** X5.  A number used as a property name reaches the handle as that
    number.  For [n] below 2^53, where the name of the property is the
    decimal rendering of [n], that rendering passes the index test and
    parses back to [n]: an assignment to it is the single item-set at [n],
    and a read of it, when the target does not own the name, is the
    item-get at [n] followed by the wrapping of the answer. *)
Theorem numeric_key_addresses_item (h : handle) (src : value) (n : nat)
    (v : value) (s : state) :
  Z.of_nat n < 2 ^ 53 ->
  trap_set (VHandle h) (PStr (pretty n)) v s =
    (r <- do_call (N_setitem h (VNum (Z.of_nat n)) v) ;; ret (not_failed r)) s
  /\ (has_own (VHandle h) src (PStr (pretty n))
        || ctor_proto_has src (PStr (pretty n)) = false ->
      trap_get (VHandle h) src (PStr (pretty n)) s =
        (r <- do_call (N_getitem h (VNum (Z.of_nat n))) ;; wrap r) s).
Proof.
  intros Hn. destruct (index_of_pretty n Hn) as [Hidx [_ Hnum]]. split.
  - unfold trap_set. rewrite Hidx, Hnum. reflexivity.
  - intros Hown. unfold trap_get. rewrite Hown, Hidx, Hnum. reflexivity.
Qed.

(** X6.  The integer of an index-like name is never negative: a name with a
    sign, a point or any other character that is not a digit fails the index
    test, and a run of digits parses to zero or more. *)
Theorem index_never_negative (name : string) :
  is_index name = true -> 0 <= parseInt10 name.
Proof.
  exact (parseInt10_nonneg name).
Qed.

(** ** eval: any number of segments and values *)

Lemma bindings_cons (e : handle) (params : list value) (idx k : nat) :
  bindings e params idx (S k) = binding e params idx :: bindings e params (idx + 1) k.
Proof. unfold bindings. cbn [seq map]. now rewrite Nat.add_1_r. Qed.

(** X7.  The reduction over the segments binds the values in order, one
    after each segment, for as long as both last: with more values than
    segments the surplus is never bound, with fewer the later segments are
    joined as they are.  The text it builds depends on the values only
    through their number (no value ever enters the source), and on a throw
    of a set-item the bindings made are a prefix of those. *)
Theorem interpolate_binds_prefix (e : handle) (params : list value)
    (strs : list string) (acc : string) (idx : nat) (s : state) r s' t :
  interpolate (VHandle e) params strs acc idx s = (r, s', t) ->
  exists k,
    t = bindings e params idx k
    /\ (k <= Nat.min (length strs) (length params - idx))%nat
    /\ marks s' = marks s
    /\ forall src, r = Ok src ->
         k = Nat.min (length strs) (length params - idx)
         /\ src = acc +:+ weave strs (length params) idx.
Proof.
  revert acc idx s r s' t.
  induction strs as [|str rest IH]; intros acc idx s r s' t H.
  - cbn [interpolate] in H. inversion H; subst. exists 0%nat.
    split; [reflexivity|]. split; [cbn; lia|]. split; [reflexivity|].
    intros src Hsrc. inversion Hsrc; subst. split; [reflexivity|].
    cbn [weave]. now rewrite string_app_nil_r.
  - cbn [interpolate] in H. cbn [weave length].
    destruct (Nat.ltb idx (length params)) eqn:Hlt.
    + apply Nat.ltb_lt in Hlt. unfold bind, method, do_call in H.
      destruct (native Z (N_setitem e (VStr (var_name idx))
                            (nth idx params VUndefined)) (world s))
        as [[x|err] w].
      * destruct (interpolate (VHandle e) params rest
                    ((acc +:+ str) +:+ var_name idx) (idx + 1)
                    (State w (marks s))) as [[r2 s2] t2] eqn:Erest.
        inversion H; subst r2 s2 t. clear H.
        destruct (IH _ _ _ _ _ _ Erest) as (k & Ht & Hk & Hm & Hsrc).
        exists (S k). rewrite bindings_cons, Ht.
        split; [reflexivity|]. split; [lia|]. split; [exact Hm|].
        intros src Hr. destruct (Hsrc src Hr) as [Hk' ->].
        split; [lia|]. now rewrite !string_app_assoc.
      * inversion H; subst. exists 1%nat.
        split; [reflexivity|]. split; [lia|]. split; [reflexivity|].
        intros src Hsrc. discriminate.
    + apply Nat.ltb_ge in Hlt.
      destruct (IH _ _ _ _ _ _ H) as (k & Ht & Hk & Hm & Hsrc).
      exists k. split; [exact Ht|]. split; [lia|]. split; [exact Hm|].
      intros src Hr. destruct (Hsrc src Hr) as [Hk' ->].
      split; [lia|]. now rewrite !string_app_assoc.
Qed.

(** X8.  The names generated for different positions are different, so no
    value of a template overwrites the binding of another. *)
Theorem generated_names_distinct (idx n : nat) :
  NoDup (map var_name (seq idx n)).
Proof.
  assert (Hinj : Inj (=) (=) var_name) by exact var_name_inj.
  exact (NoDup_fmap_2 var_name _ (NoDup_seq idx n)).
Qed.

(** X9.  A plain string, and a template of a single segment, are not set
    apart: the code is executed with the global namespace itself as globals
    and as locals, nothing is copied and nothing is bound, and the values
    given along are ignored. *)
Theorem eval_plain_runs_in_globals (src : string) (params : list value)
    (s : state) :
  eval (Plain src) params s =
    (r <- do_call (N_eval (normalize src) globals globals) ;; wrap r) s
  /\ eval (Segments [src]) params s = eval (Plain src) [] s
  /\ forall g r s' t,
       globals = VHandle g ->
       eval (Plain src) params s = (r, s', t) ->
       exists t', t = Ev (N_eval (normalize src) (VHandle g) (VHandle g)) :: t'
                  /\ existsb (targets g) t = true.
Proof.
  assert (Hrun : eval (Plain src) params s =
            (r <- do_call (N_eval (normalize src) globals globals) ;; wrap r) s).
  { unfold eval. unfold bind at 1. cbn [ret fst snd].
    destruct ((r <- do_call (N_eval (normalize src) globals globals) ;; wrap r) s)
      as [[r s'] t]. reflexivity. }
  split; [exact Hrun|]. split; [reflexivity|].
  intros g r s' t Hg H. rewrite Hrun, Hg in H. unfold bind, do_call in H.
  destruct (native value (N_eval (normalize src) (VHandle g) (VHandle g)) (world s))
    as [[x|err] w].
  - destruct (wrap x (State w (marks s))) as [[r2 s2] t2].
    inversion H; subst. exists t2. split; [reflexivity|].
    cbn [app existsb targets is_handle]. now rewrite Nat.eqb_refl.
  - inversion H; subst. exists []. split; [reflexivity|].
    cbn [existsb targets is_handle]. now rewrite Nat.eqb_refl.
Qed.

Lemma split_lines_cons (s : string) : exists l ls, split_lines s = l :: ls.
Proof.
  induction s as [|ch s IH]; [now exists EmptyString, []|].
  cbn [split_lines]. destruct (Nat.eqb (nat_of_ascii ch) 10); [now eauto|].
  destruct IH as (l & ls & ->). now eauto.
Qed.

(** Joining what [split] made gives the text back. *)
Lemma concat_split_lines (s : string) :
  String.concat newline (split_lines s) = s.
Proof.
  induction s as [|ch s IH]; [reflexivity|].
  cbn [split_lines]. destruct (split_lines_cons s) as (l & ls & Hs).
  rewrite Hs in *. destruct (Nat.eqb (nat_of_ascii ch) 10) eqn:Hch.
  - apply Nat.eqb_eq in Hch.
    assert (ch = ascii_of_nat 10) as ->
      by (rewrite <- Hch; symmetry; apply ascii_nat_embedding).
    cbn [String.concat]. rewrite <- IH. reflexivity.
  - rewrite <- IH. destruct ls; reflexivity.
Qed.

(** X10.  Text with no line to drop and no indentation to remove is
    executed as it stands: when every line of the source passes the
    empty-line filter and the indentation remover leaves each of them
    alone, normalizing the source changes nothing. *)
Theorem normalize_verbatim (src : string) :
  (forall l, In l (split_lines src) -> notEmpty l = true) ->
  (forall l, In l (split_lines src) ->
     removeIndent (getIndent (split_lines src)) l = l) ->
  normalize src = src.
Proof.
  intros Hkeep Hid. unfold normalize.
  assert (Hf : List.filter notEmpty (split_lines src) = split_lines src).
  { revert Hkeep. generalize (split_lines src) as ls.
    induction ls as [|l ls IH]; intros Hk; [reflexivity|].
    cbn [List.filter]. rewrite (Hk l (or_introl eq_refl)).
    f_equal. apply IH. intros l' Hl'. apply Hk. now right. }
  rewrite Hf.
  assert (Hm : map (removeIndent (getIndent (split_lines src))) (split_lines src)
               = split_lines src).
  { revert Hid. generalize (getIndent (split_lines src)) as ind.
    generalize (split_lines src) as ls.
    induction ls as [|l ls IH]; intros ind Hi; [reflexivity|].
    cbn [map]. rewrite (Hi l (or_introl eq_refl)).
    f_equal. apply IH. intros l' Hl'. apply Hi. now right. }
  rewrite Hm. apply concat_split_lines.
Qed.

(** ** Iteration over a sequence of any length *)

Lemma iterate_seq_from (h : handle) (n : nat) (k : nat) :
  (forall s0, exists s1 t1,
     seq_length (VHandle h) s0 = (Ok (VNum (Z.of_nat n)), s1, t1)) ->
  (forall s0 i, 0 <= i < Z.of_nat n -> exists v s2 t2,
     (x <- do_call (N_getitem h (VNum i)) ;; wrap x) s0 = (Ok v, s2, t2)) ->
  forall m j cursor s,
    (j + m = n)%nat -> advance cursor = Z.of_nat j ->
    exists vs s' t,
      iterate (S m + k) true (VHandle h) cursor s = (Ok (vs, true), s', t)
      /\ length vs = m
      /\ index_gets h t = map Z.of_nat (seq j m).
Proof.
  intros Hlen Hitem m. induction m as [|m IH]; intros j cursor s Hjm Hadv.
  - destruct (Hlen s) as (s1 & t1 & H1).
    exists [], s1, t1. split; [|split; [reflexivity|]].
    + change (1 + k)%nat with (S k).
      apply (iterate_seq_done _ _ _ _ _ _ _ H1). lia.
    + exact (quiet_seq_length h _ _ _ _ _ H1).
  - destruct (Hlen s) as (s1 & t1 & H1).
    assert (Hin : 0 <= advance cursor < Z.of_nat n) by (rewrite Hadv; lia).
    destruct (Hitem s1 (advance cursor) Hin) as (v & s2 & t2 & H2).
    assert (Hnext : advance (Some (advance cursor)) = Z.of_nat (S j))
      by (change (advance cursor + 1 = Z.of_nat (S j)); lia).
    destruct (IH (S j) (Some (advance cursor)) s2 ltac:(lia) Hnext)
      as (vs & s3 & t3 & H3 & Hvs & Hidx).
    exists (v :: vs), s3, ((t1 ++ t2) ++ t3). split; [|split].
    + change (S (S m) + k)%nat with (S (S m + k)).
      rewrite (iterate_seq_item _ _ _ _ _ _ _ _ _ _ H1 (proj2 Hin) H2), H3.
      reflexivity.
    + cbn [length]. now rewrite Hvs.
    + rewrite !index_gets_app, (quiet_seq_length h _ _ _ _ _ H1),
        (item_run_index_gets _ _ _ _ _ _ H2), Hidx, Hadv.
      reflexivity.
Qed.

(** X11.  A loop over a foreign sequence whose length query answers [n]
    and whose items can be fetched and wrapped ends within [n + 1] steps
    and yields [n] values; the items fetched are those at 0, 1, ..., n - 1,
    in that order, each once.  Over an empty sequence nothing is fetched. *)
Theorem iterate_sequence (h : handle) (n k : nat) (s : state) :
  (forall s0, exists s1 t1,
     seq_length (VHandle h) s0 = (Ok (VNum (Z.of_nat n)), s1, t1)) ->
  (forall s0 i, 0 <= i < Z.of_nat n -> exists v s2 t2,
     (x <- do_call (N_getitem h (VNum i)) ;; wrap x) s0 = (Ok v, s2, t2)) ->
  exists vs s' t,
    iterate (S n + k) true (VHandle h) None s = (Ok (vs, true), s', t)
    /\ length vs = n
    /\ index_gets h t = map Z.of_nat (seq 0 n).
Proof.
  intros Hlen Hitem.
  apply (iterate_seq_from h n k Hlen Hitem n 0%nat None s); reflexivity.
Qed.

(** ** with: what is thrown, what is settled *)

(** X12.  [with] on a context object of the host throws synchronously only
    for bad arguments.  A context whose [__enter__] or [__exit__] is not a
    function is refused before anything is called; a callback that is not a
    function makes it throw too (after the call of exit); with a valid
    context and a function it always answers a promise, whatever enter, the
    callback and exit do. *)
Theorem with_throws_only_on_bad_arguments (c : nat) (fn : value) (s : state)
    r s' t :
  with_ (VObj c) fn s = (r, s', t) ->
  (context_ok (VObj c) = false ->
     r = Raise (VTypeError
            "the context object must have the magic methods: `__enter__`, `__exit__`.")
     /\ s' = s /\ t = [])
  /\ (context_ok (VObj c) = true -> is_function fn = false ->
      exists e, r = Raise e)
  /\ (context_ok (VObj c) = true -> is_function fn = true ->
      exists p, r = Ok p).
Proof.
  intros H. unfold context_ok. unfold with_ in H. cbn [get_member] in H.
  unfold bind at 1 in H. unfold ret at 1 in H. unfold bind at 1 in H.
  destruct (is_function (read_prop (VObj c) (PStr "__enter__"))).
  - unfold bind, ret in H. cbn [andb].
    destruct (is_function (read_prop (VObj c) (PStr "__exit__"))).
    + cbn [negb] in H. cbv beta iota in H.
      split; [discriminate|]. split; intros _ Hfn; rewrite Hfn in H; cbn [negb] in H.
      * destruct (call_value _ _ _ s) as [[[x|e] s1] t1]; cbn in H;
          inversion H; subst; eauto.
      * cbn [app] in H. unfold async in H.
        destruct (with_body (VObj c) fn s) as [[[x|e] s1] t1];
          inversion H; subst; eauto.
    + cbn in H. inversion H; subst.
      split; [now intros _|]. split; discriminate.
  - cbn in H. inversion H; subst. cbn [andb].
    split; [now intros _|]. split; discriminate.
Qed.

Lemma with_catch_plain (c ex : nat) (err : value) (s : state) :
  read_prop (VObj c) (PStr "__exit__") = VFun ex ->
  thrown_plain err = true ->
  exists triple,
    length triple = 3%nat /\
    with_catch (VObj c) err s =
      match native value (H_apply (VFun ex) (VObj c) triple) (world s) with
      | (Ok handled, w) =>
          (if truthy handled then Ok true else Raise err, State w (marks s),
           [Ev (H_apply (VFun ex) (VObj c) triple)])
      | (Raise e, w) =>
          (Raise e, State w (marks s), [Ev (H_apply (VFun ex) (VObj c) triple)])
      end.
Proof.
  intros Hex Herr.
  exists (map (fun n => asHandleObject
                 match err with
                 | VTypeError _ => VUndefined
                 | _ => read_prop err (PStr n)
                 end) ["ptype"; "pvalue"; "ptrace"]).
  split; [reflexivity|].
  unfold with_catch. cbn [get_member]. rewrite Hex.
  destruct err; try discriminate; cbn [get_member map]; unfold bind, ret;
    cbn [call_value propname_eqb]; cbv beta iota; unfold do_call;
    cbn [world marks];
    repeat match goal with
           | |- context [String.eqb ?a ?b] =>
               let v := eval vm_compute in (String.eqb a b) in
               change (String.eqb a b) with v
           end;
    cbv iota;
    match goal with
    | |- _ = match native value ?c (world s) with _ => _ end =>
        destruct (native value c (world s)) as [[handled|e] w];
        [destruct (truthy handled)|]; unfold raise; reflexivity
    end.
Qed.

(** X13.  With a context object of the host and an outside callback,
    whenever what enter or the callback throws is a value whose properties
    can be read (anything but null, undefined and a proxy), every run of
    [with] calls exit exactly once, with three arguments, as its last call,
    and answers a promise: after the callback returned, after it threw, and
    also after enter itself threw. *)
Theorem with_exits_once (c en ex f : nat) (s : state) r s' t :
  read_prop (VObj c) (PStr "__enter__") = VFun en ->
  read_prop (VObj c) (PStr "__exit__") = VFun ex ->
  ex <> en -> ex <> f ->
  (forall w e w',
     native value (H_apply (VFun en) (VObj c) []) w = (Raise e, w') ->
     thrown_plain e = true) ->
  (forall v w e w',
     native value (H_apply (VFun f) VUndefined [v]) w = (Raise e, w') ->
     thrown_plain e = true) ->
  with_ (VObj c) (VFun f) s = (r, s', t) ->
  exists args t0 p,
    t = t0 ++ [Ev (H_apply (VFun ex) (VObj c) args)]
    /\ calls_to ex t0 = []
    /\ length args = 3%nat
    /\ r = Ok p.
Proof.
  intros Hen Hex Hne Hnf Henter Hfn H.
  rewrite (with_callable_run c en ex Hen Hex f s) in H. cbv zeta in H.
  assert (Een : Nat.eqb en ex = false) by (apply Nat.eqb_neq; congruence).
  assert (Ef : Nat.eqb f ex = false) by (apply Nat.eqb_neq; congruence).
  destruct (native value (H_apply (VFun en) (VObj c) []) (world s))
    as [[v|err] w1] eqn:E1.
  - destruct (native value (H_apply (VFun f) VUndefined [v]) w1)
      as [[x|err] w2] eqn:E2.
    + exists [VNull; VNull; VNull],
        [Ev (H_apply (VFun en) (VObj c) []); Ev (H_apply (VFun f) VUndefined [v])].
      destruct (native value (H_apply (VFun ex) (VObj c) [VNull; VNull; VNull]) w2)
        as [[y|e] w3]; inversion H; subst; eexists;
        (split; [reflexivity|]; split; [|split; reflexivity]);
        cbn [calls_to flat_map application]; now rewrite Een, Ef.
    + destruct (with_catch_plain c ex err (State w2 (marks s)) Hex
                  (Hfn _ _ _ _ E2)) as (triple & Hlen & Hc).
      rewrite Hc in H. cbn [world marks] in H. unfold settle in H.
      exists triple,
        [Ev (H_apply (VFun en) (VObj c) []); Ev (H_apply (VFun f) VUndefined [v])].
      destruct (native value (H_apply (VFun ex) (VObj c) triple) w2)
        as [[handled|e] w3]; [destruct (truthy handled)|];
        inversion H; subst; eexists;
        (split; [reflexivity|]; split; [|split; [exact Hlen | reflexivity]]);
        cbn [calls_to flat_map application]; now rewrite Een, Ef.
  - destruct (with_catch_plain c ex err (State w1 (marks s)) Hex
                (Henter _ _ _ E1)) as (triple & Hlen & Hc).
    rewrite Hc in H. cbn [world marks] in H. unfold settle in H.
    exists triple, [Ev (H_apply (VFun en) (VObj c) [])].
    destruct (native value (H_apply (VFun ex) (VObj c) triple) w1)
      as [[handled|e] w3]; [destruct (truthy handled)|];
      inversion H; subst; eexists;
      (split; [reflexivity|]; split; [|split; [exact Hlen | reflexivity]]);
      cbn [calls_to flat_map application]; now rewrite Een.
Qed.

(** ** kwargs of a kwargs object *)

Lemma kwargs_object_enumerable (h : heap) (input : value) k p :
  kwargs_object h input !! k = Some p -> p_enumerable p = true.
Proof.
  unfold kwargs_object. intros H.
  destruct (decide (k = PStr KWARGS_NAME)) as [->|Hk].
  - rewrite lookup_insert_eq in H. now inversion H.
  - rewrite lookup_insert_ne in H by congruence.
    rewrite lookup_fmap in H.
    destruct (enumerable_own h input !! k); inversion H. reflexivity.
Qed.

(** X14.  [kwargs] applied to an object it made answers another new
    object with the same properties: the marker is written again with the
    same value, and every property of a kwargs object is enumerable, so none
    is lost. *)
Theorem kwargs_twice (input : value) (h : heap) :
  typeof input = "object" ->
  exists o h1 o' h2 props,
    kwargs input h = (Ok (VObj o), h1)
    /\ kwargs (VObj o) h1 = (Ok (VObj o'), h2)
    /\ o' <> o
    /\ h2 !! o = Some props
    /\ h2 !! o' = Some props.
Proof.
  intros Hty.
  set (o := fresh (dom h)).
  set (h1 := <[o := kwargs_object h input]> h).
  set (o' := fresh (dom h1)).
  assert (Ho : h1 !! o = Some (kwargs_object h input))
    by apply lookup_insert_eq.
  assert (Hne : o' <> o).
  { intros E. pose proof (kwargs_location_fresh h1) as Hf.
    fold o' in Hf. rewrite E in Hf. congruence. }
  exists o, h1, o', (<[o' := kwargs_object h1 (VObj o)]> h1),
    (kwargs_object h input).
  split; [unfold kwargs; now rewrite Hty|].
  split; [reflexivity|]. split; [exact Hne|].
  split; [now rewrite lookup_insert_ne by exact Hne|].
  rewrite lookup_insert_eq. f_equal.
  unfold kwargs_object at 1. cbn [enumerable_own]. rewrite Ho.
  rewrite map_filter_id
    by (intros k p Hk; exact (kwargs_object_enumerable _ _ _ _ Hk)).
  rewrite <- map_fmap_compose.
  assert (Hid : (fun v => Property v true) ∘ p_value <$> kwargs_object h input
                = kwargs_object h input).
  { apply map_eq. intros k. rewrite lookup_fmap.
    destruct (kwargs_object h input !! k) as [p|] eqn:Hk; [|reflexivity].
    pose proof (kwargs_object_enumerable _ _ _ _ Hk) as Hp.
    destruct p as [v en]. cbn in *. now subst en. }
  rewrite Hid. apply insert_id. unfold kwargs_object. apply lookup_insert_eq.
Qed.

(** ** The members every proxy has *)

Lemma mapM_wrap_run (args : list value) :
  forall s r s' t, mapM wrap args s = (r, s', t) ->
    (length t <= 8 * length args)%nat
    /\ forall ws, r = Ok ws -> length ws = length args.
Proof.
  induction args as [|a args IH]; intros s r s' t H.
  - inversion H; subst. split; [cbn; lia|].
    intros ws Hws. now inversion Hws.
  - cbn [mapM] in H. unfold bind in H.
    destruct (wrap a s) as [[[y|e] s1] t1] eqn:Ea.
    + destruct (bounded_wrap a _ _ _ _ Ea) as [Hl _].
      destruct (mapM wrap args s1) as [[[ys|e] s2] t2] eqn:Eargs.
      * destruct (IH _ _ _ _ Eargs) as [Hl2 Hlen].
        cbn in H. inversion H; subst. rewrite !length_app. cbn [length].
        split; [lia|]. intros ws Hws. inversion Hws; subst.
        cbn [length]. now rewrite (Hlen ys eq_refl).
      * destruct (IH _ _ _ _ Eargs) as [Hl2 _].
        inversion H; subst. rewrite length_app. cbn [length].
        split; [lia | discriminate].
    + destruct (bounded_wrap a _ _ _ _ Ea) as [Hl _].
      inversion H; subst. cbn [length]. split; [lia | discriminate].
Qed.

(** X15.  The dispatch member, applied to an outside callback and any
    arguments, wraps the arguments from left to right and then applies the
    callback once, to as many values as it was given, with the receiver it
    was called on; when the wrapping of an argument throws, the callback is
    not applied.  The wrapping costs at most eight calls an argument. *)
Theorem dispatch_wraps_arguments (T this : value) (f : nat) (args : list value)
    (s : state) r s' t :
  capability_call CapDispatch T this (VFun f :: args) s = (r, s', t) ->
  (length t <= 8 * length args + 1)%nat
  /\ ((exists ws s1 t1,
         mapM wrap args s = (Ok ws, s1, t1)
         /\ length ws = length args
         /\ t = t1 ++ [Ev (H_apply (VFun f) this ws)])
      \/ (exists e, r = Raise e /\ mapM wrap args s = (Raise e, s', t))).
Proof.
  intros H. cbn [capability_call arg nth is_nullish tl] in H.
  change (is_function (VFun f)) with true in H. cbv iota in H.
  unfold bind in H.
  destruct (mapM wrap args s) as [[[ws|e] s1] t1] eqn:Eargs;
    destruct (mapM_wrap_run _ _ _ _ _ Eargs) as [Hl Hlen].
  - unfold do_call in H.
    destruct (native value (H_apply (VFun f) this ws) (world s1)) as [r0 w].
    inversion H; subst. rewrite length_app. cbn [length].
    split; [lia|]. left. exists ws, s1, t1.
    split; [reflexivity|]. split; [now apply Hlen | reflexivity].
  - inversion H; subst. split; [lia|]. right. now exists e.
Qed.

Lemma proxy_member (T src : value) (name : propname) (v : value) (s : state) :
  assoc_last name (installed T) = Some v ->
  last_flag name installed_configurable = Some true ->
  get_member (VProxy T src) name s =
    (Ok (if is_function v then VBound v (VProxy T src) else v), s, []).
Proof.
  intros Hv Hc. rewrite get_member_proxy.
  unfold get_refused, target_lock. rewrite Hc.
  unfold trap_get, has_own, target_read, target_own.
  rewrite Hv. reflexivity.
Qed.

(** X16.  The members named after the foreign protocol go straight to the
    handle, whatever the delegator put on the target under those names:
    each is one call on the handle with the arguments as given, and the
    answer comes back as the foreign runtime gave it, not wrapped. *)
Theorem magic_members_forward (h : handle) (src k v : value) (s : state) :
  let p := VProxy (VHandle h) src in
  member_call p (PStr "__getitem__") [k] s = do_call (N_getitem h k) s
  /\ member_call p (PStr "__getattr__") [k] s = do_call (N_getattr h k) s
  /\ member_call p (PStr "__hasattr__") [k] s =
       (b <- do_call (N_hasattr h k) ;; ret (VBool b)) s
  /\ member_call p (PStr "__setitem__") [k; v] s =
       (r <- do_call (N_setitem h k v) ;; ret (VNum r)) s
  /\ member_call p (PStr "__setattr__") [k; v] s =
       (r <- do_call (N_setattr h k v) ;; ret (VNum r)) s
  /\ member_call p (PStr "__hash__") [] s = do_call (N_hash h) s
  /\ member_call p (PStr "toString") [] s =
       (x <- do_call (N_toString h) ;; ret (VStr x)) s.
Proof.
  intros p. subst p. unfold member_call.
  repeat split;
    (erewrite bind_ok by (apply proxy_member; reflexivity));
    match goal with
    | |- context [is_function ?f] => change (is_function f) with true
    end;
    cbv iota; cbn [call_value capability_call method arg nth];
    unfold bind, ret, do_call;
    match goal with
    | |- context [native ?X ?c (world s)] =>
        destruct (native X c (world s)) as [[x|e] w]; reflexivity
    end.
Qed.

(** X17.  Reading the handle name off a proxy gives back the handle the
    proxy was made for, without any call, provided the native constant is
    not one of the other names the file installs. *)
Theorem proxy_exposes_handle (h : handle) (src : value) (s : state) :
  ~ In HANDLE_NAME
      [JS_DISPATCH; "invoke"; "toString"; "slice"; "__hash__"; "__hasattr__";
       "__getattr__"; "__getitem__"; "__setattr__"; "__setitem__"] ->
  get_member (VProxy (VHandle h) src) (PStr HANDLE_NAME) s
    = (Ok (VHandle h), s, []).
Proof.
  intros Hnot.
  assert (Hne : forall a,
            In a [JS_DISPATCH; "invoke"; "toString"; "slice"; "__hash__";
                  "__hasattr__"; "__getattr__"; "__getitem__"; "__setattr__";
                  "__setitem__"] ->
            String.eqb a HANDLE_NAME = false).
  { intros a Ha. apply String.eqb_neq. intros E. apply Hnot. now rewrite <- E. }
  assert (Hown : target_own (VHandle h) src (PStr HANDLE_NAME) = Some (VHandle h)).
  { unfold target_own, installed. cbn [assoc_last propname_eqb].
    rewrite !Hne by (cbn [In]; repeat (first [left; reflexivity | right])).
    now rewrite String.eqb_refl. }
  rewrite get_member_proxy.
  unfold get_refused, trap_get, has_own, target_read. rewrite Hown.
  destruct (target_lock src (PStr HANDLE_NAME)); reflexivity.
Qed.

(** ** import *)

(** X18.  [import] asks the foreign runtime for the module first and wraps
    what it answers: after that one call come at most eight more, those of
    [wrap] (no second import, no set-item or set-attribute, no execution);
    when the module cannot be imported the throw is passed on as it is and
    nothing else is called. *)
Theorem import_wraps_module (mod_ : value) (s : state) r s' t :
  import mod_ s = (r, s', t) ->
  exists t',
    t = Ev (N_import mod_) :: t'
    /\ (length t' <= 8)%nat
    /\ forallb inspects t' = true
    /\ forall e w,
         native value (N_import mod_) (world s) = (Raise e, w) ->
         r = Raise e /\ t' = [].
Proof.
  intros H. unfold import, bind, do_call in H.
  destruct (native value (N_import mod_) (world s)) as [[x|e] w].
  - destruct (wrap x (State w (marks s))) as [[r2 s2] t2] eqn:Ew.
    destruct (bounded_wrap x _ _ _ _ Ew) as [Hl Hp].
    inversion H; subst. exists t2.
    split; [reflexivity|]. split; [exact Hl|]. split; [exact Hp|].
    intros e w' He. discriminate.
  - inversion H; subst. exists [].
    split; [reflexivity|]. split; [cbn; lia|]. split; [reflexivity|].
    intros e' w' He. inversion He; subst. now split.
Qed.

End Bridge.

(** * The bridge over the small foreign world *)

Abbreviation py_s0 := (State py_start ∅).
Abbreviation py_wrap := (wrap python py_delegators py_inherited (VHandle 0)).
Abbreviation py_type_trace h ty :=
  [Ev (N_getitem 0 (VStr "type")); Ev (N_invoke 1 [VHandleRef (VHandle h)]);
   Ev (N_getattr ty (VStr "__module__"));
   Ev (N_toString (if Nat.eqb ty 54 then 61 else 60));
   Ev (N_getattr ty (VStr "__name__")); Ev (N_toString (ty + 20))].

(** [wrap] of the foreign integer 42 is the number 42. *)
Lemma wrap_null_none_primitive_witness :
  py_wrap (VHandle 10) py_s0 =
    (Ok (VNum 42), py_s0, py_type_trace 10%nat 50%nat ++ [Ev (N_toPrimitive 10)]).
Proof.
  destruct (wrap_null_none_primitive python py_delegators py_inherited (VHandle 0))
    as [_ [_ Hprim]].
  rewrite (Hprim 10%nat py_s0 "builtins" "int" py_s0 (py_type_trace 10%nat 50%nat));
    [reflexivity | reflexivity | simpl; auto].
Defined.

(** [wrap] of the foreign None is null. *)
Example wrap_none :
  py_wrap (VHandle 11) py_s0 = (Ok VNull, py_s0, py_type_trace 11%nat 51%nat).
Proof. reflexivity. Qed.


Abbreviation py_get :=
  (trap_get python py_delegators py_inherited (VHandle 0)
     py_own_prop py_ctor_proto_has py_proto_read "__handle__" "__dispatch__").

Abbreviation py_read :=
  (get_member python py_delegators py_inherited (VHandle 0)
     py_own_prop py_ctor_proto_has py_proto_read "__handle__" "__dispatch__"
     py_own_lock).



Abbreviation py_assign :=
  (set_member python py_own_prop py_proto_read "__handle__" "__dispatch__"
     py_own_lock py_same_value).




Example iterate_list :
  fst (fst (iterate python py_delegators py_inherited (VHandle 0) 4 true (VHandle 12) None py_s0))
    = Ok ([VNum 42; VNum 42; VNum 42], true).
Proof. reflexivity. Qed.

Abbreviation py_construct :=
  (trap_construct python py_delegators py_inherited (VHandle 0)
     py_own_prop py_ctor_proto_has py_proto_read "__handle__" "__dispatch__"
     py_own_lock).

(** Constructing from the class 15 with the argument 7 and a subclass that
    declares [hello]: the class is invoked with 7, the initializer 17 with
    nothing, and [hello] is set on the instance 16. *)
Lemma construct_protocol_witness :
  exists w5,
    py_construct (VHandle 15) [VNum 7]
      [("constructor", VFun 50); ("hello", VFun 51)] py_s0 =
      (Ok (VProxy (VHandle 16) (VObj 40)),
       State w5 (<[ 17%nat := VProxy (VHandle 17) (VFun 41) ]>
                   {[ 16%nat := VProxy (VHandle 16) (VObj 40) ]}),
       Ev (N_invoke 15 [VNum 7]) ::
       (py_type_trace 16%nat 54%nat ++
        [Ev (N_isCallable 16); Ev (H_apply (VFun 0) VUndefined [VHandle 16; VWrap])]) ++
       (Ev (N_hasattr 16 (VStr "__init__")) :: Ev (N_getattr 16 (VStr "__init__")) ::
        py_type_trace 17%nat 55%nat ++
        [Ev (N_isCallable 17); Ev (H_apply (VFun 1) VUndefined [VHandle 17; VWrap])]) ++
       (Ev (N_invoke 17 []) :: py_type_trace 11%nat 51%nat) ++
       [Ev (N_setattr 16 (VStr "hello") (VFun 51))]).
Proof.
  set (obj := VProxy (VHandle 16) (VObj 40)).
  set (init := VProxy (VHandle 17) (VFun 41)).
  set (s2 := State py_start {[ 16%nat := obj ]}).
  set (s3 := State py_start (<[ 17%nat := init ]> {[ 16%nat := obj ]})).
  destruct (construct_protocol python py_delegators py_inherited (VHandle 0)
              py_own_prop py_ctor_proto_has py_proto_read
              "__handle__" "__dispatch__" py_own_lock
              15%nat 16%nat (VObj 40) [VNum 7]
              [("constructor", VFun 50); ("hello", VFun 51)]
              py_s0 s2 s3 s3 py_start (VHandle 16) init VNull
              (py_type_trace 16%nat 54%nat ++
               [Ev (N_isCallable 16);
                Ev (H_apply (VFun 0) VUndefined [VHandle 16; VWrap])])
              (Ev (N_hasattr 16 (VStr "__init__")) ::
               Ev (N_getattr 16 (VStr "__init__")) ::
               py_type_trace 17%nat 55%nat ++
               [Ev (N_isCallable 17);
                Ev (H_apply (VFun 1) VUndefined [VHandle 17; VWrap])])
              (Ev (N_invoke 17 []) :: py_type_trace 11%nat 51%nat))
    as [[w5 H] _].
  - reflexivity.
  - reflexivity.
  - reflexivity.
  - reflexivity.
  - intros n v w. exists 0, w. reflexivity.
  - exists w5. exact H.
Defined.

(** In the small world a call changes the bindings of the global namespace
    only when it is handed that namespace. *)
Lemma py_frame (X : Type) (c : call X) (w : py_world) :
  targets 7 (Ev c) = false -> py_globals (snd (python X c w)) = py_globals w.
Proof.
  unfold py_globals, python. cbn [snd].
  destruct c; cbn [py_step targets]; intros Ht; try reflexivity.
  - destruct k; try reflexivity. destruct (w !! T); [|reflexivity].
    apply Nat.eqb_neq in Ht. now rewrite lookup_insert_ne.
  - destruct args as [|[] [|]]; try reflexivity; destruct T0; try reflexivity.
    destruct (Nat.eqb T 6); [|reflexivity].
    now rewrite lookup_insert_ne.
  - destruct locals; try reflexivity. destruct (w !! T); [|reflexivity].
    cbn [is_handle] in Ht. apply orb_false_elim in Ht as [_ Ht].
    apply Nat.eqb_neq in Ht. now rewrite lookup_insert_ne.
Qed.

Abbreviation py_eval :=
  (eval python py_delegators py_inherited (VHandle 0) (VHandle 7)
     py_notEmpty py_getIndent py_removeIndent).

(** A template with two values: the bindings go to the copy 100 under
    [boa_eval_var_0] and [boa_eval_var_1], and the global namespace 7 is as
    it was. *)
Lemma eval_shadow_namespace_witness :
  py_globals
    (world (snd (fst (py_eval (Segments ["f("; ", "; ")"]) [VNum 1; VStr "a"] py_s0))))
    = py_globals py_start
  /\ existsb (targets 7)
       (snd (py_eval (Segments ["f("; ", "; ")"]) [VNum 1; VStr "a"] py_s0))
     = false
  /\ bindings 100 [VNum 1; VStr "a"] 0 2 =
       [Ev (N_setitem 100 (VStr "boa_eval_var_0") (VNum 1));
        Ev (N_setitem 100 (VStr "boa_eval_var_1") (VStr "a"))].
Proof.
  destruct (eval_shadow_namespace python py_delegators py_inherited (VHandle 0) (VHandle 7)
              py_notEmpty py_getIndent py_removeIndent 7%nat py_globals py_frame
              ["f("; ", "; ")"] [VNum 1; VStr "a"] py_s0
              (State (<[ 100%nat := {[ "x" := VNum 1 ]} ]> py_start) ∅)
              [Ev (N_import (VStr "copy")); Ev (N_getattr 5 (VStr "copy"));
               Ev (N_invoke 6 [VHandleRef (VHandle 7)])]
              100%nat)
    as [_ [_ [H _]]].
  - reflexivity.
  - reflexivity.
  - discriminate.
  - reflexivity.
  - discriminate.
  - intros k v w. eexists. exists (py_step (N_setitem 100 k v) w). reflexivity.
  - destruct (py_eval (Segments ["f("; ", "; ")"]) [VNum 1; VStr "a"] py_s0)
      as [[r s'] t] eqn:E.
    destruct (H r s' t eq_refl) as [H1 [H2 _]].
    split; [assumption | split; [assumption | vm_compute; reflexivity]].
Defined.

Example eval_two_values :
  snd (py_eval (Segments ["f("; ", "; ")"]) [VNum 1; VStr "a"] py_s0) =
    [Ev (N_import (VStr "copy")); Ev (N_getattr 5 (VStr "copy"));
     Ev (N_invoke 6 [VHandleRef (VHandle 7)]);
     Ev (N_setitem 100 (VStr "boa_eval_var_0") (VNum 1));
     Ev (N_setitem 100 (VStr "boa_eval_var_1") (VStr "a"));
     Ev (N_eval "f(boa_eval_var_0, boa_eval_var_1)" (VHandle 100) (VHandle 100))]
    ++ py_type_trace 11%nat 51%nat.
Proof. vm_compute. reflexivity. Qed.

Abbreviation py_kwargs := (kwargs "__kwargs__" (fun _ => ∅)).
Abbreviation py_heap :=
  ({[ 1%nat := {[ PStr "axis" := Property (VNum 0) true;
                  PStr "hidden" := Property (VNum 9) false ]} ]} : heap).

(** [kwargs] of a string throws; [kwargs] of the object 1 answers a new
    object with the tag. *)
Lemma kwargs_type_check_witness :
  py_kwargs (VStr "axis") py_heap
    = (Raise (VTypeError "input must be a string."), py_heap)
  /\ exists o props,
       py_kwargs (VObj 1) py_heap = (Ok (VObj o), <[o := props]> py_heap)
       /\ props !! PStr "__kwargs__" = Some (Property (VBool true) true).
Proof.
  split.
  - destruct (kwargs_type_check "__kwargs__" (fun _ => ∅) (VStr "axis") py_heap)
      as [H _].
    apply H. discriminate.
  - destruct (kwargs_type_check "__kwargs__" (fun _ => ∅) (VObj 1) py_heap)
      as [_ [_ [H _]]].
    apply H. reflexivity.
Defined.

(** The claim as it stands fails on null and on functions: null is not an
    object and is accepted, a function is an object and is refused. *)
Lemma kwargs_null_is_accepted :
  is_object VNull = false
  /\ (exists o h', py_kwargs VNull py_heap = (Ok (VObj o), h'))
  /\ is_object (VFun 0) = true
  /\ py_kwargs (VFun 0) py_heap
     = (Raise (VTypeError "input must be a string."), py_heap).
Proof.
  split; [reflexivity|]. split; [|split; reflexivity].
  eexists. eexists. reflexivity.
Qed.


(** Only the enumerable property of the object 1 is copied. *)
Example kwargs_copies_enumerable :
  enumerable_own (fun _ => ∅) py_heap (VObj 1) = {[ PStr "axis" := VNum 0 ]}.
Proof. vm_compute. reflexivity. Qed.

Abbreviation py_with :=
  (with_ python py_delegators py_inherited (VHandle 0)
     py_own_prop py_ctor_proto_has py_proto_read "__handle__" "__dispatch__"
     py_own_lock).

(** C3, where the code departs from it.  With the context object 30 and the
    callback 12, which throws undefined: enter is called, the callback is
    called, and exit is never called; the promise rejects with a TypeError
    of the bridge, not with what the callback threw. *)
Theorem with_undefined_throw_never_exits :
  py_with (VObj 30) (VFun 12) py_s0 =
    (Ok (Rejected (VTypeError "Cannot read properties")), py_s0,
     [Ev (H_apply (VFun 10) (VObj 30) []);
      Ev (H_apply (VFun 12) VUndefined [VNum 1])])
  /\ calls_to 11
       (snd (py_with (VObj 30) (VFun 12) py_s0)) = [].
Proof. split; reflexivity. Qed.

(** The sibling paths call exit once: a callback that throws an error
    object, a callback that returns, a callback that is no function. *)
Example with_object_throw_exits :
  py_with (VObj 30) (VFun 13) py_s0 =
    (Ok (Rejected (VObj 95)), py_s0,
     [Ev (H_apply (VFun 10) (VObj 30) []);
      Ev (H_apply (VFun 13) VUndefined [VNum 1]);
      Ev (H_apply (VFun 11) (VObj 30)
            [VHandleRef VUndefined; VHandleRef VUndefined; VHandleRef VUndefined])]).
Proof. reflexivity. Qed.

Example with_return_exits :
  py_with (VObj 30) (VFun 14) py_s0 =
    (Ok Fulfilled, py_s0,
     [Ev (H_apply (VFun 10) (VObj 30) []);
      Ev (H_apply (VFun 14) VUndefined [VNum 1]);
      Ev (H_apply (VFun 11) (VObj 30) [VNull; VNull; VNull])]).
Proof. reflexivity. Qed.

Example with_no_function_exits :
  py_with (VObj 30) (VNum 3) py_s0 =
    (Raise (VTypeError "the `fn` must be a function."), py_s0,
     [Ev (H_apply (VFun 11) (VObj 30) [VNull; VNull; VNull])]).
Proof. reflexivity. Qed.

(** * The further properties on the fixture *)

(** Wrapping the list 12 takes eight calls. *)
Lemma wrap_only_inspects_witness :
  (length (snd (py_wrap (VHandle 12) py_s0)) <= 8)%nat
  /\ forallb inspects (snd (py_wrap (VHandle 12) py_s0)) = true.
Proof.
  exact (wrap_only_inspects python py_delegators py_inherited (VHandle 0) (VHandle 12) py_s0
           (fst (fst (py_wrap (VHandle 12) py_s0)))
           (snd (fst (py_wrap (VHandle 12) py_s0)))
           (snd (py_wrap (VHandle 12) py_s0)) eq_refl).
Defined.


(** Assigning [y] on the object 14, which has neither the attribute nor
    items, takes all three calls. *)
Lemma set_only_assigns_witness :
  snd (trap_set python (VHandle 14) (PStr "y") (VNum 5) py_s0) =
    [Ev (N_hasattr 14 (VStr "y")); Ev (N_setitem 14 (VStr "y") (VNum 5));
     Ev (N_setattr 14 (VStr "y") (VNum 5))]
  /\ forallb (assigns 14)
       (snd (trap_set python (VHandle 14) (PStr "y") (VNum 5) py_s0)) = true
  /\ marks (snd (fst (trap_set python (VHandle 14) (PStr "y") (VNum 5) py_s0)))
     = marks py_s0.
Proof.
  destruct (set_only_assigns python 14%nat (PStr "y") (VNum 5) py_s0
              (fst (fst (trap_set python (VHandle 14) (PStr "y") (VNum 5) py_s0)))
              (snd (fst (trap_set python (VHandle 14) (PStr "y") (VNum 5) py_s0)))
              (snd (trap_set python (VHandle 14) (PStr "y") (VNum 5) py_s0))
              eq_refl)
    as [_ [Hp Hm]].
  split; [reflexivity | split; assumption].
Defined.

(** Wrapping the list 12 writes its proxy on the handle 12; wrapping the
    integer 10 writes nothing. *)
Lemma wrap_marks_its_answer_witness :
  (marks (snd (fst (py_wrap (VHandle 12) py_s0))) = marks py_s0
   \/ exists h src,
        VHandle 12 = VHandle h
        /\ fst (fst (py_wrap (VHandle 12) py_s0)) = Ok (VProxy (VHandle 12) src)
        /\ marks (snd (fst (py_wrap (VHandle 12) py_s0)))
           = <[h := VProxy (VHandle 12) src]> (marks py_s0))
  /\ marks (snd (fst (py_wrap (VHandle 10) py_s0))) = marks py_s0.
Proof.
  split; [|reflexivity].
  exact (wrap_marks_its_answer python py_delegators py_inherited (VHandle 0) (VHandle 12) py_s0
           (fst (fst (py_wrap (VHandle 12) py_s0)))
           (snd (fst (py_wrap (VHandle 12) py_s0)))
           (snd (py_wrap (VHandle 12) py_s0)) eq_refl).
Defined.

(** The property 1 of the list 12 is its item at 1. *)
Lemma numeric_key_addresses_item_witness :
  trap_set python (VHandle 12) (PStr (pretty 1%nat)) (VNum 5) py_s0 =
    (Ok false, py_s0, [Ev (N_setitem 12 (VNum 1) (VNum 5))])
  /\ snd (py_get (VHandle 12) (VObj 42) (PStr (pretty 1%nat)) py_s0) =
       Ev (N_getitem 12 (VNum 1)) ::
       py_type_trace 10%nat 50%nat ++ [Ev (N_toPrimitive 10)].
Proof.
  destruct (numeric_key_addresses_item python py_delegators py_inherited (VHandle 0)
              py_own_prop py_ctor_proto_has py_proto_read
              "__handle__" "__dispatch__" 12%nat (VObj 42) 1%nat (VNum 5) py_s0)
    as [Hs Hg]; [reflexivity|].
  split; [rewrite Hs; reflexivity | rewrite (Hg eq_refl); reflexivity].
Defined.

Lemma index_never_negative_witness : 0 <= parseInt10 "12".
Proof. exact (index_never_negative "12" eq_refl). Defined.

(** Two segments and three values: the first two values are bound, the
    third never is. *)
Lemma interpolate_binds_prefix_witness :
  exists k,
    snd (interpolate python (VHandle 100) [VNum 1; VStr "a"; VNum 3]
           ["f("; ")"] EmptyString 0 py_s0)
      = bindings 100 [VNum 1; VStr "a"; VNum 3] 0 k
    /\ (k <= 2)%nat.
Proof.
  destruct (interpolate_binds_prefix python 100%nat [VNum 1; VStr "a"; VNum 3]
              ["f("; ")"] EmptyString 0%nat py_s0
              (fst (fst (interpolate python (VHandle 100) [VNum 1; VStr "a"; VNum 3]
                           ["f("; ")"] EmptyString 0 py_s0)))
              (snd (fst (interpolate python (VHandle 100) [VNum 1; VStr "a"; VNum 3]
                           ["f("; ")"] EmptyString 0 py_s0)))
              (snd (interpolate python (VHandle 100) [VNum 1; VStr "a"; VNum 3]
                      ["f("; ")"] EmptyString 0 py_s0))
              eq_refl)
    as (k & Ht & Hk & _).
  exists k. split; [exact Ht | exact Hk].
Defined.

Example interpolate_surplus_value :
  interpolate python (VHandle 100) [VNum 1; VStr "a"; VNum 3]
    ["f("; ")"] EmptyString 0 py_s0 =
    (Ok "f(boa_eval_var_0)boa_eval_var_1", py_s0,
     [Ev (N_setitem 100 (VStr "boa_eval_var_0") (VNum 1));
      Ev (N_setitem 100 (VStr "boa_eval_var_1") (VStr "a"))]).
Proof. vm_compute. reflexivity. Qed.

(** A plain string is executed in the global namespace 7. *)
Lemma eval_plain_runs_in_globals_witness :
  existsb (targets 7) (snd (py_eval (Plain "x = 2") [VNum 1] py_s0)) = true.
Proof.
  destruct (eval_plain_runs_in_globals python py_delegators py_inherited (VHandle 0) (VHandle 7)
              py_notEmpty py_getIndent py_removeIndent "x = 2" [VNum 1] py_s0)
    as [_ [_ H]].
  destruct (H 7%nat
              (fst (fst (py_eval (Plain "x = 2") [VNum 1] py_s0)))
              (snd (fst (py_eval (Plain "x = 2") [VNum 1] py_s0)))
              (snd (py_eval (Plain "x = 2") [VNum 1] py_s0))
              eq_refl eq_refl) as [t' [_ Ht]].
  exact Ht.
Defined.

(** Two lines, neither empty nor indented. *)
Lemma normalize_verbatim_witness :
  normalize py_notEmpty py_getIndent py_removeIndent ("a" +:+ newline +:+ "b")
    = "a" +:+ newline +:+ "b".
Proof.
  apply (normalize_verbatim py_notEmpty py_getIndent py_removeIndent).
  - intros l Hl. vm_compute in Hl. destruct Hl as [ <- | [ <- | [] ] ]; reflexivity.
  - intros l Hl. reflexivity.
Defined.

(** The list 12 has length 3. *)
Lemma iterate_sequence_witness :
  exists vs s' t,
    iterate python py_delegators py_inherited (VHandle 0) 4 true (VHandle 12) None py_s0
      = (Ok (vs, true), s', t)
    /\ length vs = 3%nat
    /\ index_gets 12 t = [0; 1; 2].
Proof.
  apply (iterate_sequence python py_delegators py_inherited (VHandle 0) 12%nat 3%nat 0%nat py_s0).
  - intros [w mk]. eexists. eexists. reflexivity.
  - intros [w mk] i Hi.
    assert (i = 0 \/ i = 1 \/ i = 2) as [ -> | [ -> | -> ] ] by lia;
      eexists; eexists; eexists; reflexivity.
Defined.

(** The object 31 has no [__enter__]: it is refused, and nothing is
    called. *)
Lemma with_throws_only_on_bad_arguments_witness :
  py_with (VObj 31) (VFun 14) py_s0 =
    (Raise (VTypeError
       "the context object must have the magic methods: `__enter__`, `__exit__`."),
     py_s0, []).
Proof.
  destruct (with_throws_only_on_bad_arguments python py_delegators py_inherited (VHandle 0)
              py_own_prop py_ctor_proto_has py_proto_read
              "__handle__" "__dispatch__" py_own_lock 31%nat (VFun 14) py_s0
              (fst (fst (py_with (VObj 31) (VFun 14) py_s0)))
              (snd (fst (py_with (VObj 31) (VFun 14) py_s0)))
              (snd (py_with (VObj 31) (VFun 14) py_s0)) eq_refl)
    as [H _].
  destruct (H eq_refl) as [Hr [Hs Ht]].
  reflexivity.
Defined.

(** With the context object 30 and the callback 13, which throws an error
    object, exit is the last call. *)
Lemma with_exits_once_witness :
  exists args t0 p,
    snd (py_with (VObj 30) (VFun 13) py_s0)
      = t0 ++ [Ev (H_apply (VFun 11) (VObj 30) args)]
    /\ calls_to 11 t0 = []
    /\ length args = 3%nat
    /\ fst (fst (py_with (VObj 30) (VFun 13) py_s0)) = Ok p.
Proof.
  apply (with_exits_once python py_delegators py_inherited (VHandle 0)
           py_own_prop py_ctor_proto_has py_proto_read
           "__handle__" "__dispatch__" py_own_lock
           30%nat 10%nat 11%nat 13%nat py_s0
           (fst (fst (py_with (VObj 30) (VFun 13) py_s0)))
           (snd (fst (py_with (VObj 30) (VFun 13) py_s0)))
           (snd (py_with (VObj 30) (VFun 13) py_s0))).
  - reflexivity.
  - reflexivity.
  - discriminate.
  - discriminate.
  - intros w e w' H. discriminate H.
  - intros v w e w' H. inversion H. reflexivity.
  - reflexivity.
Defined.

(** [kwargs] of the kwargs object of the object 1. *)
Lemma kwargs_twice_witness :
  exists o h1 o' h2 props,
    py_kwargs (VObj 1) py_heap = (Ok (VObj o), h1)
    /\ py_kwargs (VObj o) h1 = (Ok (VObj o'), h2)
    /\ o' <> o
    /\ h2 !! o = Some props
    /\ h2 !! o' = Some props.
Proof.
  exact (kwargs_twice "__kwargs__" (fun _ => ∅) (VObj 1) py_heap eq_refl).
Defined.

Abbreviation py_dispatch :=
  (capability_call python py_delegators py_inherited (VHandle 0)
     CapDispatch (VHandle 12) (VProxy (VHandle 12) (VObj 42))).

(** Dispatching the callback 14 with the integer 10 and None: it gets 42
    and null. *)
Lemma dispatch_wraps_arguments_witness :
  (length (snd (py_dispatch [VFun 14; VHandle 10; VHandle 11] py_s0)) <= 17)%nat
  /\ calls_to 14 (snd (py_dispatch [VFun 14; VHandle 10; VHandle 11] py_s0))
     = [[VNum 42; VNull]].
Proof.
  destruct (dispatch_wraps_arguments python py_delegators py_inherited (VHandle 0)
              (VHandle 12) (VProxy (VHandle 12) (VObj 42)) 14%nat
              [VHandle 10; VHandle 11] py_s0
              (fst (fst (py_dispatch [VFun 14; VHandle 10; VHandle 11] py_s0)))
              (snd (fst (py_dispatch [VFun 14; VHandle 10; VHandle 11] py_s0)))
              (snd (py_dispatch [VFun 14; VHandle 10; VHandle 11] py_s0))
              eq_refl) as [Hl _].
  split; [exact Hl | reflexivity].
Defined.

(** The proxy of the list 12 gives the handle 12 back. *)
Lemma proxy_exposes_handle_witness :
  py_read
    (VProxy (VHandle 12) (VObj 42)) (PStr "__handle__") py_s0
    = (Ok (VHandle 12), py_s0, []).
Proof.
  apply (proxy_exposes_handle python py_delegators py_inherited (VHandle 0)
           py_own_prop py_ctor_proto_has py_proto_read "__handle__" "__dispatch__"
           py_own_lock).
  simpl. intuition discriminate.
Defined.

(** Importing the module [copy]. *)
Lemma import_wraps_module_witness :
  exists t',
    snd (import python py_delegators py_inherited (VHandle 0) (VStr "copy") py_s0)
      = Ev (N_import (VStr "copy")) :: t'
    /\ (length t' <= 8)%nat
    /\ forallb inspects t' = true.
Proof.
  destruct (import_wraps_module python py_delegators py_inherited (VHandle 0) (VStr "copy") py_s0
              (fst (fst (import python py_delegators py_inherited (VHandle 0) (VStr "copy") py_s0)))
              (snd (fst (import python py_delegators py_inherited (VHandle 0) (VStr "copy") py_s0)))
              (snd (import python py_delegators py_inherited (VHandle 0) (VStr "copy") py_s0))
              eq_refl) as (t' & Ht & Hl & Hp & _).
  exists t'. split; [exact Ht | split; [exact Hl | exact Hp]].
Defined.
